(** * petar/blog: the content aggregation and caching pipeline of [post/post.go]

    A shallow embedding of the Go package [post]: the metadata record, the
    timestamp decoder, the content parser [loadPost], the directory walk
    [readDirEllipses], the index builder [gentoc] with its permit pool of
    twenty goroutines, and the feed builder [atomfeed].

    What the package imports from other packages (the appfs file system,
    [time.Parse], [encoding/json], [sort.Sort], [html/template], [path.Join],
    the wall clock) is not part of the repository; it enters as Section
    variables, with the documented contract of the import as hypotheses where
    a proof needs it. *)

From Stdlib Require Import Ascii String ZArith.
From stdpp Require Import gmap strings list sorting relations.

Set Default Goal Selector "!".
Local Open Scope string_scope.
Local Open Scope list_scope.
Local Open Scope nat_scope.

(** ** Characters that have no literal inside a Rocq string *)

Definition nl : string := String "010"%char EmptyString.
Definition dquote : string := String "034"%char EmptyString.

(** ** [time.Time]

    The package only asks three things of a [time.Time]: [IsZero], [After] and
    [Equal]. All three compare instants and ignore the location, so a time is
    modelled by its instant: nanoseconds since January 1, year 1, 00:00 UTC
    (the zero time is the instant 0). *)
Module time.
Definition Time := Z.
Definition zero : Time := 0%Z.
Definition IsZero (t : Time) : bool := (t =? 0)%Z.
Definition After (t u : Time) : bool := (u <? t)%Z.
Definition Equal (t u : Time) : bool := (t =? u)%Z.
(** [time.RFC3339] *)
Definition RFC3339 : string := "2006-01-02T15:04:05Z07:00".
End time.

(** ** [proto.FileInfo], as the appfs listing returns it *)
Module proto.
Record FileInfo := mkFileInfo {
  Name : string;
  ModTime : time.Time;
  Size : Z;          (* int64 *)
  IsDir : bool
}.
End proto.

(** ** [Config] and the package variable [config] *)
Record Config := mkConfig {
  cfg_Name : string;
  cfg_Email : string;
  cfg_Account : string;
  PlusID : string;
  PlusKey : string;
  PublicURL : string;
  FeedID : string;
  FeedTitle : string
}.

(** ** [blogTime] and [PostData] *)
Record blogTime := mkBlogTime { Time_of : time.Time }.

Record PostData := mkPostData {
  FileModTime : time.Time;
  FileSize : Z;        (* int64 *)
  Title : string;
  Date : blogTime;
  Name : string;
  OldURL : string;
  Summary : string;
  Favorite : bool;
  NotInTOC : bool;
  Aux : string;
  Author : string;
  Reader : list string;
  PlusAuthor : string;
  PlusPage : string;
  PlusAPIKey : string;
  PlusURL : string;
  HostURL : string;
  Comments : bool;
  article : string
}.

(** [meta.FileModTime = ...; meta.FileSize = ...] *)
Definition set_FileStat (d : PostData) (fi : proto.FileInfo) : PostData :=
  mkPostData (proto.ModTime fi) (proto.Size fi) (Title d) (Date d) (Name d)
    (OldURL d) (Summary d) (Favorite d) (NotInTOC d) (Aux d) (Author d)
    (Reader d) (PlusAuthor d) (PlusPage d) (PlusAPIKey d) (PlusURL d)
    (HostURL d) (Comments d) (article d).

(** [meta.article = article] *)
Definition set_article (d : PostData) (a : string) : PostData :=
  mkPostData (FileModTime d) (FileSize d) (Title d) (Date d) (Name d)
    (OldURL d) (Summary d) (Favorite d) (NotInTOC d) (Aux d) (Author d)
    (Reader d) (PlusAuthor d) (PlusPage d) (PlusAPIKey d) (PlusURL d)
    (HostURL d) (Comments d) a.

(** [func (d *PostData) canRead(user string) bool] *)
Fixpoint canRead_range (readers : list string) (user : string) : bool :=
  match readers with
  | [] => false
  | r :: rest => if String.eqb r user then true else canRead_range rest user
  end.

Definition canRead (d : PostData) (user : string) : bool :=
  canRead_range (Reader d) user.

(** [func (d *PostData) IsDraft() bool]; [now] is what [time.Now()] returns
    when the call is made (it is only read when the date is not zero). *)
Definition IsDraft (now : time.Time) (d : PostData) : bool :=
  time.IsZero (Time_of (Date d)) || time.After (Time_of (Date d)) now.

(** ** The timestamp decoder *)

(** An error value, by its message. *)
Definition error := string.

(** [json.Unmarshaler]: a type that decodes itself from the JSON text of its
    field. The receiver is a pointer; the method returns the receiver's new
    value with the error. *)
Class Unmarshaler (T : Type) := UnmarshalJSON : string -> T -> T * option error.

Definition timeFormats : list string :=
  [ time.RFC3339;
    "Monday, January 2, 2006";
    "January 2, 2006 15:00 -0700" ].

(** The layout handed to [time.Parse] for the format [f]: the format between
    double quotes, as the JSON text of the field has them. *)
Definition layout (f : string) : string := dquote +:+ f +:+ dquote.

Section Decoder.
(** [time.Parse layout value]: the parsed time, or [None] for an error. *)
Variable time_Parse : string -> string -> option time.Time.

(** The [for _, f := range timeFormats] loop of [UnmarshalJSON]. *)
Fixpoint blogTime_range (formats : list string) (str : string) (t : blogTime)
  : blogTime * option error :=
  match formats with
  | [] => (t, Some ("did not recognize time: " +:+ str))
  | f :: rest =>
      match time_Parse (layout f) str with
      | Some parsed => (mkBlogTime parsed, None)
      | None => blogTime_range rest str t
      end
  end.

(** [func (t *blogTime) UnmarshalJSON(data []byte) (err error)] *)
Definition blogTime_UnmarshalJSON : Unmarshaler blogTime :=
  fun data t => blogTime_range timeFormats data t.
End Decoder.


(** ** The content parser [loadPost] *)

(** What a call of [loadPost] does: it returns a record and the article, it
    returns an error, or it panics. *)
Inductive loadResult :=
| LoadOk (meta : PostData) (article : string)
| LoadErr (err : error)
| LoadPanic (msg : string).

(** The pairs given to [strings.NewReplacer]. *)
Definition replacer : list (string * string) :=
  [ ("⁰", "<sup>0</sup>"); ("¹", "<sup>1</sup>"); ("²", "<sup>2</sup>");
    ("³", "<sup>3</sup>"); ("⁴", "<sup>4</sup>"); ("⁵", "<sup>5</sup>");
    ("⁶", "<sup>6</sup>"); ("⁷", "<sup>7</sup>"); ("⁸", "<sup>8</sup>");
    ("⁹", "<sup>9</sup>"); ("ⁿ", "<sup>n</sup>");
    ("₀", "<sub>0</sub>"); ("₁", "<sub>1</sub>"); ("₂", "<sub>2</sub>");
    ("₃", "<sub>3</sub>"); ("₄", "<sub>4</sub>"); ("₅", "<sub>5</sub>");
    ("₆", "<sub>6</sub>"); ("₇", "<sub>7</sub>"); ("₈", "<sub>8</sub>");
    ("₉", "<sub>9</sub>");
    ("``", "&ldquo;"); ("''", "&rdquo;") ].

Section Parser.
(** The package variable [config] and the [Host] of the request. *)
Variable config : Config.
Variable req_Host : string.
(** [c.Read(name)] of the appfs context: the bytes and the file's info, or an
    error. *)
Variable fs_Read : string -> error + (string * proto.FileInfo).
(** [json.Unmarshal(hdr, meta)] into a [*PostData]: the record with the
    header's fields stored, or the decoder's error. The decoder calls the
    [UnmarshalJSON] of the [Date] field, which it is given as an instance. *)
Variable json_Unmarshal :
  Unmarshaler blogTime -> string -> PostData -> error + PostData.
Variable time_Parse : string -> string -> option time.Time.
(** The [Replace] method of the [strings.Replacer] built from the given pairs. *)
Variable strings_Replace : list (string * string) -> string -> string.

(** [func hostURL(req *http.Request) string] *)
Definition hostURL : string :=
  match String.index 0 "localhost" req_Host with
  | Some _ => "http://localhost:8000"
  | None => PublicURL config
  end.

(** The literal [&PostData{Name: name, Title: ..., ...}] at the head of
    [loadPost]. *)
Definition loadPost_literal (name : string) : PostData :=
  mkPostData time.zero 0 "¿Title?" (mkBlogTime time.zero) name
    EmptyString EmptyString false false EmptyString EmptyString []
    (PlusID config) EmptyString (PlusKey config) EmptyString hostURL false
    EmptyString.

(** [art[i:]] of a byte slice. *)
Definition bytes_from (i : nat) (art : string) : string :=
  String.substring i (String.length art - i) art.

(** [func loadPost(c, name, req) (meta *PostData, article string, err error)] *)
Definition loadPost (name : string) : loadResult :=
  let meta := loadPost_literal name in
  match fs_Read name with
  | inl err => LoadErr err
  | inr (art, fi) =>
      if String.prefix ("{" +:+ nl) art then
        match String.index 0 (nl +:+ "}" +:+ nl) art with
        | None => LoadPanic "cannot find end of json metadata"
        | Some i =>
            let hdr := String.substring 0 (i + 3) art in
            let rest := bytes_from (i + 3) art in
            match json_Unmarshal (blogTime_UnmarshalJSON time_Parse) hdr meta with
            | inl err => LoadPanic ("loading " +:+ name +:+ ": " +:+ err)
            | inr meta' =>
                LoadOk (set_FileStat meta' fi) (strings_Replace replacer rest)
            end
        end
      else LoadOk (set_FileStat meta fi) (strings_Replace replacer art)
  end.
End Parser.

(** ** The directory walk [readDirEllipses] *)

Definition set_Name (d : proto.FileInfo) (full : string) : proto.FileInfo :=
  proto.mkFileInfo full (proto.ModTime d) (proto.Size d) (proto.IsDir d).

Section Scanner.
(** [c.ReadDir(root)] of the appfs context. *)
Variable fs_ReadDir : string -> error + list proto.FileInfo.
(** [path.Join] of two elements. *)
Variable path_Join : string -> string -> string.

(** The [for _, dir := range children] loop: directories go to the back of the
    queue [q], files to the result [r] under their full name. *)
Fixpoint readDir_children (rpath : string) (children : list proto.FileInfo)
  (q : list string) (r : list proto.FileInfo)
  : list string * list proto.FileInfo :=
  match children with
  | [] => (q, r)
  | dir :: rest =>
      let full := path_Join rpath (proto.Name dir) in
      if proto.IsDir dir then readDir_children rpath rest (q ++ [full]) r
      else readDir_children rpath rest q (r ++ [set_Name dir full])
  end.

(** The [for e := q.Front(); e != nil; e = q.Front()] loop. The file system is
    a function the walk knows nothing about, so the loop runs on fuel, one unit
    per directory read; [None] is an exhausted fuel. *)
Fixpoint readDirEllipses_loop (fuel : nat) (q : list string)
  (r : list proto.FileInfo) : option (error + list proto.FileInfo) :=
  match q with
  | [] => Some (inr r)
  | rpath :: q' =>
      match fuel with
      | O => None
      | S fuel' =>
          match fs_ReadDir rpath with
          | inl err => Some (inl err)
          | inr children =>
              let '(q'', r') := readDir_children rpath children q' r in
              readDirEllipses_loop fuel' q'' r'
          end
      end
  end.

(** [func readDirEllipses(c, root) (r []proto.FileInfo, err error)] *)
Definition readDirEllipses (fuel : nat) (root : string)
  : option (error + list proto.FileInfo) :=
  readDirEllipses_loop fuel [root] [].
End Scanner.

(** ** The refresh phase of [gentoc]: twenty permits and a result channel

    The main goroutine walks the listing; a cached record that is still valid
    goes to [ch] directly, any other item takes a permit from [limit] and gets
    a goroutine of its own. The goroutines and the main goroutine interleave,
    so the phase is a step relation on the state of the channels and of every
    goroutine. *)

(** [const par = 20] *)
Definition par : nat := 20.

(** The condition of the [if] at the head of the dispatch loop:
    [meta := postCache[d.Name]; meta != nil && meta.FileModTime.Equal(d.ModTime)
    && meta.FileSize == d.Size]. The map holds pointers; a key that is absent
    and a key that holds nil both read as nil, which is [None] here. *)
Definition cacheLookup (postCache : gmap string PostData) (d : proto.FileInfo)
  : option PostData :=
  match postCache !! proto.Name d with
  | Some meta =>
      if time.Equal (FileModTime meta) (proto.ModTime d)
         && (FileSize meta =? proto.Size d)%Z
      then Some meta else None
  | None => None
  end.

(** Where a goroutine started by [go func(d proto.FileInfo) {...}(d)] stands. *)
Inductive goroutine :=
| GLoad (d : proto.FileInfo)   (* about to call loadPost(c, d.Name, req) *)
| GSend (meta : PostData)      (* about to run ch <- meta *)
| GDefer                       (* returning: the deferred limit <- true *)
| GDeferPanic (msg : string)   (* panicking: the deferred limit <- true *)
| GPanic (msg : string).       (* deferred calls done, the panic reaches the top *)

(** Where the main goroutine stands. *)
Inductive mainPC :=
| MRange (rest : list proto.FileInfo)  (* for _, d := range dir, items left *)
| MWait (i : nat)                      (* for i := 0; i < par; i++ { <-limit } *)
| MClosed.                             (* close(ch) is done *)

(** The state of the phase. [limit] is the number of values buffered in the
    channel [limit] (they are all [true]); [ch] is the buffer of the channel
    [ch], oldest first; [crashed] is set once a panic has reached the top of a
    goroutine, which ends the process; [log] collects the [c.Criticalf] lines.
    The last three fields are bookkeeping the program does not have: the names
    [loadPost] was called with, the permits the dispatch loop took, and the
    permits the goroutines gave back. *)
Record state := mkState {
  pc : mainPC;
  limit : nat;
  ch : list PostData;
  gs : list goroutine;
  crashed : option string;
  log : list string;
  loads : list string;
  acquired : nat;
  released : nat
}.

Section Refresher.
(** [loadPost(c, name, req)] as the goroutine calls it; the files do not
    change while the pass runs, so it is a function of the name. *)
Variable load : string -> loadResult.
(** The map read from the file [blogcache], and the listing. *)
Variable postCache : gmap string PostData.
Variable dir : list proto.FileInfo.

(** After [ch := make(chan *PostData, len(dir))], [limit := make(chan bool, par)]
    and the loop that puts [par] values into [limit]. *)
Definition init : state :=
  mkState (MRange dir) par [] [] None [] [] 0 0.

(** What a goroutine does after its call of [loadPost] returned [r]: the next
    place it stands at, and the line it logs. *)
Definition after_load (d : proto.FileInfo) (r : loadResult)
  : goroutine * list string :=
  match r with
  | LoadOk meta _ => (GSend meta, [])
  | LoadErr err =>
      (GDefer, ["loadPost " +:+ proto.Name d +:+ ": " +:+ err])
  | LoadPanic msg => (GDeferPanic msg, [])
  end.

(** One step of one goroutine. A send needs room in the buffer ([len(dir)]
    for [ch], [par] for [limit]), a receive needs a buffered value; a blocked
    goroutine has no step. A crashed process has no step. *)
Inductive step : state -> state -> Prop :=
(* the cached record is valid: ch <- meta; continue *)
| step_hit d rest meta lim c g lg ld a r :
    cacheLookup postCache d = Some meta ->
    length c < length dir ->
    step (mkState (MRange (d :: rest)) lim c g None lg ld a r)
         (mkState (MRange rest) lim (c ++ [meta]) g None lg ld a r)
(* it is not: <-limit, then go func(d proto.FileInfo) {...}(d) *)
| step_go d rest lim c g lg ld a r :
    cacheLookup postCache d = None ->
    step (mkState (MRange (d :: rest)) (S lim) c g None lg ld a r)
         (mkState (MRange rest) lim c (g ++ [GLoad d]) None lg ld (S a) r)
(* the range over dir is exhausted *)
| step_range_end lim c g lg ld a r :
    step (mkState (MRange []) lim c g None lg ld a r)
         (mkState (MWait 0) lim c g None lg ld a r)
(* i < par: <-limit; i++ *)
| step_wait i lim c g lg ld a r :
    i < par ->
    step (mkState (MWait i) (S lim) c g None lg ld a r)
         (mkState (MWait (S i)) lim c g None lg ld a r)
(* i < par fails: close(ch) *)
| step_close i lim c g lg ld a r :
    ¬ i < par ->
    step (mkState (MWait i) lim c g None lg ld a r)
         (mkState MClosed lim c g None lg ld a r)
(* a goroutine: meta, _, err := loadPost(c, d.Name, req), and the test of err *)
| step_load p d g1 g2 lim c lg ld a r g' line :
    after_load d (load (proto.Name d)) = (g', line) ->
    step (mkState p lim c (g1 ++ GLoad d :: g2) None lg ld a r)
         (mkState p lim c (g1 ++ g' :: g2) None (lg ++ line)
            (ld ++ [proto.Name d]) a r)
(* a goroutine: ch <- meta *)
| step_send p meta g1 g2 lim c lg ld a r :
    length c < length dir ->
    step (mkState p lim c (g1 ++ GSend meta :: g2) None lg ld a r)
         (mkState p lim (c ++ [meta]) (g1 ++ GDefer :: g2) None lg ld a r)
(* a goroutine returns: the deferred limit <- true, and it is gone *)
| step_defer p g1 g2 lim c lg ld a r :
    lim < par ->
    step (mkState p lim c (g1 ++ GDefer :: g2) None lg ld a r)
         (mkState p (S lim) c (g1 ++ g2) None lg ld a (S r))
(* a goroutine panics: the deferred limit <- true runs first *)
| step_defer_panic p msg g1 g2 lim c lg ld a r :
    lim < par ->
    step (mkState p lim c (g1 ++ GDeferPanic msg :: g2) None lg ld a r)
         (mkState p (S lim) c (g1 ++ GPanic msg :: g2) None lg ld a (S r))
(* then the panic leaves the goroutine, which ends the process *)
| step_panic p msg g1 g2 lim c lg ld a r :
    step (mkState p lim c (g1 ++ GPanic msg :: g2) None lg ld a r)
         (mkState p lim c (g1 ++ g2) (Some msg) lg ld a r).

(** The states a run of the phase can be in. *)
Definition reachable (s : state) : Prop := rtc step init s.


(** What one item contributes to [ch]: the cached record, or what a fresh
    [loadPost] returns; nothing when [loadPost] fails. *)
Definition resolve (d : proto.FileInfo) : option PostData :=
  match cacheLookup postCache d with
  | Some meta => Some meta
  | None =>
      match load (proto.Name d) with
      | LoadOk meta _ => Some meta
      | _ => None
      end
  end.

(** The items that are not served from the cache. *)
Definition stale (d : proto.FileInfo) : bool :=
  match cacheLookup postCache d with Some _ => false | None => true end.

Definition staleItems (l : list proto.FileInfo) : list proto.FileInfo :=
  filter (λ d, stale d = true) l.


(** A stale item whose [loadPost] returns an error, with the line logged. *)
Definition failure (d : proto.FileInfo) : option string :=
  if stale d then
    match load (proto.Name d) with
    | LoadErr err => Some ("loadPost " +:+ proto.Name d +:+ ": " +:+ err)
    | _ => None
    end
  else None.


(** The same three, as the lists and numbers the invariants add up. *)
Definition resolved (d : proto.FileInfo) : list PostData :=
  option_list (resolve d).

Definition failed (d : proto.FileInfo) : list string :=
  option_list (failure d).

Definition stale_name (d : proto.FileInfo) : list string :=
  if stale d then [proto.Name d] else [].

Definition is_stale (d : proto.FileInfo) : nat := if stale d then 1 else 0.



(** The record a goroutine has still to send. *)
Definition yield (g : goroutine) : list PostData :=
  match g with
  | GLoad d =>
      match load (proto.Name d) with LoadOk meta _ => [meta] | _ => [] end
  | GSend meta => [meta]
  | _ => []
  end.

(** The line a goroutine has still to log. *)
Definition lines (g : goroutine) : list string :=
  match g with
  | GLoad d =>
      match load (proto.Name d) with
      | LoadErr err => ["loadPost " +:+ proto.Name d +:+ ": " +:+ err]
      | _ => []
      end
  | _ => []
  end.
End Refresher.

(** *** Measures on a state, for the invariants of the phase *)

(** A goroutine holds the permit it was started with until its deferred
    [limit <- true] has run. *)
Definition permit (g : goroutine) : nat :=
  match g with GPanic _ => 0 | _ => 1 end.

(** A goroutine that may still send on [ch]. *)
Definition sends (g : goroutine) : nat :=
  match g with GLoad _ | GSend _ => 1 | _ => 0 end.

(** The name a goroutine has still to call [loadPost] with. *)
Definition to_load (g : goroutine) : list string :=
  match g with GLoad d => [proto.Name d] | _ => [] end.

(** The steps a goroutine has left, at most. *)
Definition work (g : goroutine) : nat :=
  match g with
  | GLoad _ => 3 | GSend _ => 2 | GDefer => 1 | GDeferPanic _ => 2 | GPanic _ => 1
  end.

(** The permits the wait loop has received. *)
Definition drained (p : mainPC) : nat :=
  match p with MRange _ => 0 | MWait i => i | MClosed => par end.

(** The items the dispatch loop has not come to. *)
Definition unvisited (p : mainPC) : list proto.FileInfo :=
  match p with MRange rest => rest | _ => [] end.




(** ** The rest of [gentoc]: filter, sort, persist *)

(** [func (x byTime) Less(i, j int) bool], on the two elements. *)
Definition byTime_Less (x y : PostData) : bool :=
  time.After (Time_of (Date x)) (Time_of (Date y)).

(** The condition under which the loop over [ch] appends a record to [all].
    [now] is the clock reading of the [IsDraft] call, when it is made. *)
Definition toc_keep (draft isOwner : bool) (user : string) (now : time.Time)
  (meta : PostData) : bool :=
  (negb draft && negb (IsDraft now meta) && negb (NotInTOC meta))
  || (isOwner && draft)
  || canRead meta user.

(** What [sort.Sort] promises for [byTime]: it rearranges the slice, and
    afterwards no element is [Less] than one before it. The package's
    documentation adds that the sort is not guaranteed to be stable. *)
Definition sorts_byTime
  (sort_Sort : (PostData -> PostData -> bool) -> list PostData -> list PostData)
  : Prop :=
  ∀ l, sort_Sort byTime_Less l ≡ₚ l
       ∧ ∀ i j x y, i < j ->
           sort_Sort byTime_Less l !! i = Some x ->
           sort_Sort byTime_Less l !! j = Some y ->
           byTime_Less y x = false.

Section Assembler.
Variables (draft isOwner : bool) (user : string).
(** The reading of [time.Now()] while the loop is at the record of index [i];
    the body reads the clock at most once. *)
Variable clock : nat -> time.Time.

(** The [for meta := range ch] loop of [gentoc], from the record of index [i]
    on, with the map and the slice built so far. *)
Fixpoint gentoc_range (i : nat) (metas : list PostData)
  (postCache : gmap string PostData) (all : list PostData)
  : gmap string PostData * list PostData :=
  match metas with
  | [] => (postCache, all)
  | meta :: rest =>
      let postCache := <[Name meta := meta]> postCache in
      let all :=
        if toc_keep draft isOwner user (clock i) meta then all ++ [meta]
        else all in
      gentoc_range (S i) rest postCache all
  end.

(** [postCache = map[string]*PostData{}; var all []*PostData] and the loop. *)
Definition gentoc_collect (metas : list PostData)
  : gmap string PostData * list PostData :=
  gentoc_range 0 metas ∅ [].
End Assembler.

(** [TocData], what the template of the index page is executed on. *)
Record TocData := mkTocData {
  toc_User : string;
  toc_Draft : bool;
  toc_HostURL : string;
  DraftRoot : string;
  PostRoot : string;
  Posts : list PostData
}.

(** How a call of [gentoc] ends. *)
Inductive tocOutcome :=
| TocPanic (msg : string)      (* a panic in the main goroutine (serve recovers it) *)
| TocCrash (msg : string)      (* a panic at the top of a parse goroutine *)
| TocReaddir (n : nat)         (* the readdir=1 answer: n dir entries *)
| TocPage (written : gmap string PostData) (persisted : option string)
    (posts : list PostData) (page : string) (lines : list string).

Section Index.
Variable config : Config.
Variable req_Host : string.
Variable load : string -> loadResult.
Variable fs_Read : string -> error + (string * proto.FileInfo).
Variable fs_ReadDir : string -> error + list proto.FileInfo.
Variable path_Join : string -> string -> string.
(** [c.User()] *)
Variable ctxt_User : string.
(** [json.Unmarshal(data, &postCache)]: the map after the call (the decoder
    may have stored some entries before it failed) and the error. *)
Variable json_UnmarshalCache : string -> gmap string PostData * option error.
(** [json.Marshal(postCache)] *)
Variable json_MarshalCache : gmap string PostData -> error + string.
(** [c.Write("blogcache", data)]: the error, if any. *)
Variable fs_Write : string -> string -> option error.
(** [sort.Sort] on a slice with the given [Less]. *)
Variable sort_Sort :
  (PostData -> PostData -> bool) -> list PostData -> list PostData.
(** [mainTemplate(c)] and [t.Lookup("toc").Execute(&buf, data)]: the page, or
    the error the call panics with. *)
Variable toc_Execute : TocData -> error + string.
Variable clock : nat -> time.Time.

(** [postCache := map[string]*PostData{}] and the read of [blogcache]. *)
Definition loadCache : gmap string PostData * list string :=
  match fs_Read "blogcache" with
  | inr (data, _) =>
      match json_UnmarshalCache data with
      | (m, None) => (m, [])
      | (m, Some err) => (m, ["unmarshal blogcache: " +:+ err])
      end
  | inl _ => (∅, [])
  end.

(** The write of the new map to [blogcache]: what was written, if the map
    could be encoded, and the line logged. *)
Definition saveCache (postCache : gmap string PostData)
  : option string * list string :=
  match json_MarshalCache postCache with
  | inl err => (None, ["marshal blogcache: " +:+ err])
  | inr data =>
      match fs_Write "blogcache" data with
      | Some err => (Some data, ["write blogcache: " +:+ err])
      | None => (Some data, [])
      end
  end.

(** [gentoc] from the loop over [ch] to the end, given what [ch] held when it
    was closed and the lines logged so far. *)
Definition gentoc_tail (draft isOwner : bool) (user : string)
  (metas : list PostData) (lines : list string) : tocOutcome :=
  let '(postCache, all) := gentoc_collect draft isOwner user clock metas in
  let posts := sort_Sort byTime_Less all in
  let '(persisted, lines') := saveCache postCache in
  match toc_Execute (mkTocData ctxt_User draft (hostURL config req_Host)
                       "/draft" "/" posts) with
  | inl err => TocPanic err
  | inr page => TocPage postCache persisted posts page (lines ++ lines')
  end.

(** [func gentoc(w, req, key, draft, isOwner, user)]. [readdir] is
    [req.FormValue("readdir")]; [fuel] bounds the directory walk. The refresh
    phase interleaves, so a call has more than one possible outcome. *)
Inductive gentoc (fuel : nat) (readdir : string) (draft isOwner : bool)
  (user : string) : tocOutcome -> Prop :=
| gentoc_scan_error err :
    readDirEllipses fs_ReadDir path_Join fuel "blog/post" = Some (inl err) ->
    gentoc fuel readdir draft isOwner user (TocPanic err)
| gentoc_readdir dir :
    readDirEllipses fs_ReadDir path_Join fuel "blog/post" = Some (inr dir) ->
    readdir = "1" ->
    gentoc fuel readdir draft isOwner user (TocReaddir (length dir))
| gentoc_crash dir s msg :
    readDirEllipses fs_ReadDir path_Join fuel "blog/post" = Some (inr dir) ->
    readdir ≠ "1" ->
    reachable load (fst loadCache) dir s ->
    crashed s = Some msg ->
    gentoc fuel readdir draft isOwner user (TocCrash msg)
| gentoc_done dir s :
    readDirEllipses fs_ReadDir path_Join fuel "blog/post" = Some (inr dir) ->
    readdir ≠ "1" ->
    reachable load (fst loadCache) dir s ->
    pc s = MClosed ->
    crashed s = None ->
    gentoc fuel readdir draft isOwner user
      (gentoc_tail draft isOwner user (ch s) (snd loadCache ++ log s)).
End Index.

(** ** The feed builder [atomfeed] *)

(** The value a panic carries. *)
Inductive panicValue :=
| PanicString (msg : string)          (* panic of a string *)
| PanicError (err : error)            (* panic(err) *)
| PanicIndex (i len : nat).           (* runtime error: index out of range *)

(** [atom.Entry] and [atom.Feed], with the fields [atomfeed] fills in. *)
Record atom_Entry := mkEntry {
  entry_Title : string;
  entry_ID : string;
  entry_Link : string;         (* the Href of the one link, Rel alternate *)
  entry_Published : time.Time;
  entry_Updated : time.Time;
  entry_Summary : string;
  entry_Content : string
}.

Record atom_Feed := mkFeed {
  feed_Title : string;
  feed_ID : string;
  feed_Updated : time.Time;
  feed_Author : string * string * string;   (* Name, URI, Email *)
  feed_Link : string;          (* the Href of the one link, Rel self *)
  feed_Entry : list atom_Entry
}.

Definition isFavorite (m : PostData) : Prop := Favorite m = true.

#[global] Instance isFavorite_dec m : Decision (isFavorite m).
Proof. unfold isFavorite. apply _. Defined.

(** A slice is a window on a backing array. [show = show[:10]] keeps the array
    of [all], so [append(show, meta)] writes into that array while there is
    room, and only then moves to a new one. The array is the list [arr] (its
    capacity is its length) and the slice is its first [n] elements. *)
Definition slice_append (arr : list PostData) (n : nat) (meta : PostData)
  : list PostData * nat :=
  if (n <? length arr)%nat then (<[n := meta]> arr, S n)
  else (take n arr ++ [meta], S n).

(** [for _, meta := range all[10:] { if meta.Favorite { show = append(show, meta) } }]:
    the element of index [j] is read from the array when its turn comes, [k]
    elements are still to be visited, and [show] is the first [n] elements. *)
Fixpoint show_range (arr : list PostData) (n j k : nat)
  : list PostData * nat :=
  match k with
  | O => (arr, n)
  | S k' =>
      match arr !! j with
      | Some meta =>
          if Favorite meta then
            let '(arr', n') := slice_append arr n meta in
            show_range arr' n' (S j) k'
          else show_range arr n (S j) k'
      | None => (arr, n)
      end
  end.

(** [show := all; if len(show) > 10 { show = show[:10]; for ... }] *)
Definition atomfeed_show (all : list PostData) : list PostData :=
  if (10 <? length all)%nat then
    let '(arr, n) := show_range all 10 10 (length all - 10) in
    take n arr
  else all.

Section Feed.
Variable config : Config.
Variable req_Host : string.
Variable load : string -> loadResult.
Variable fs_ReadDir : string -> error + list proto.FileInfo.
Variable sort_Sort :
  (PostData -> PostData -> bool) -> list PostData -> list PostData.
(** The template work of one entry: [c.Read("blog/atom.html")], the two
    [Parse] calls and [t.Execute(&buf, meta)]. The text, or the error the
    first failing call panics with. *)
Variable atom_Execute : PostData -> error + string.
(** [xml.Marshal(&feed)] *)
Variable xml_Marshal : atom_Feed -> error + string.
(** The reading of [time.Now()] while the loop is at the entry of index [i]. *)
Variable clock : nat -> time.Time.

(** [for _, d := range dir { meta, article, err := loadPost(c, d.Name, req) ... }] *)
Fixpoint atomfeed_range (i : nat) (dir : list proto.FileInfo)
  (all : list PostData) : panicValue + list PostData :=
  match dir with
  | [] => inr all
  | d :: rest =>
      match load (proto.Name d) with
      | LoadErr err => inl (PanicError err)
      | LoadPanic msg => inl (PanicString msg)
      | LoadOk meta article =>
          if IsDraft (clock i) meta then atomfeed_range (S i) rest all
          else atomfeed_range (S i) rest (all ++ [set_article meta article])
      end
  end.

(** The [atom.Entry] literal. *)
Definition atomfeed_entry (id : string) (meta : PostData) (body : string)
  : atom_Entry :=
  mkEntry (Title meta) (id +:+ "/" +:+ Name meta)
    (HostURL meta +:+ "/" +:+ Name meta)
    (Time_of (Date meta)) (Time_of (Date meta)) (Summary meta) body.

(** [for _, meta := range show { ... feed.Entry = append(feed.Entry, e) }] *)
Fixpoint atomfeed_entries (id : string) (show : list PostData)
  (entries : list atom_Entry) : panicValue + list atom_Entry :=
  match show with
  | [] => inr entries
  | meta :: rest =>
      match atom_Execute meta with
      | inl err => inl (PanicError err)
      | inr body =>
          atomfeed_entries id rest (entries ++ [atomfeed_entry id meta body])
      end
  end.

(** [func atomfeed(w, req)] on a miss of the output cache: the feed and its
    XML text, or the value it panics with. *)
Definition atomfeed : panicValue + (atom_Feed * string) :=
  match fs_ReadDir "blog/post" with
  | inl err => inl (PanicError err)
  | inr dir =>
      match atomfeed_range 0 dir [] with
      | inl p => inl p
      | inr all =>
          let all := sort_Sort byTime_Less all in
          let show := atomfeed_show all in
          match show with
          | [] => inl (PanicIndex 0 0)          (* show[0] *)
          | first :: _ =>
              match atomfeed_entries (FeedID config) show [] with
              | inl p => inl p
              | inr entries =>
                  let feed :=
                    mkFeed (FeedTitle config) (FeedID config)
                      (Time_of (Date first))
                      (cfg_Name config,
                       "https://plus.google.com/" +:+ PlusID config,
                       cfg_Email config)
                      (hostURL config req_Host +:+ "/feed.atom") entries in
                  match xml_Marshal feed with
                  | inl err => inl (PanicError err)
                  | inr data => inr (feed, data)
                  end
              end
          end
      end
  end.
End Feed.

(** ** Helpers for the statements *)

(** The elements of [l] with the index a loop meets them at, counted from
    [i]. *)
Definition indexed {A} (i : nat) (l : list A) : list (nat * A) :=
  zip (seq i (length l)) l.

(** The record met at index [p.1] passes the filter of the index. *)
Definition kept (draft isOwner : bool) (user : string) (clock : nat -> time.Time)
  (p : nat * PostData) : Prop :=
  toc_keep draft isOwner user (clock p.1) p.2 = true.

#[global] Instance kept_dec draft isOwner user clock p :
  Decision (kept draft isOwner user clock p).
Proof. unfold kept. apply _. Defined.

(** What the entry met at index [p.1] gives the feed when its parse succeeds:
    the fresh record with its article, unless it is a draft at that moment. *)
Definition published (load : string -> loadResult) (clock : nat -> time.Time)
  (p : nat * proto.FileInfo) : option PostData :=
  match load (proto.Name p.2) with
  | LoadOk meta article =>
      if IsDraft (clock p.1) meta then None else Some (set_article meta article)
  | _ => None
  end.

(** * A small blog, to run the definitions on *)

Definition demo_post (name title : string) (date modtime size : Z) (fav : bool)
  : PostData :=
  mkPostData modtime size title (mkBlogTime date) name
    EmptyString EmptyString fav false EmptyString EmptyString []
    EmptyString EmptyString EmptyString EmptyString EmptyString false
    EmptyString.

Definition demo_file (name : string) (modtime size : Z) : proto.FileInfo :=
  proto.mkFileInfo name modtime size false.

(** The tree: three posts under [blog/post]. *)
Definition demo_listing : list proto.FileInfo :=
  [demo_file "a" 5 3; demo_file "b" 6 4; demo_file "c" 7 5].

Definition demo_ReadDir (root : string) : error + list proto.FileInfo :=
  if String.eqb root "blog/post" then inr demo_listing
  else inl "not a directory".

Definition demo_Join (a b : string) : string := a +:+ "/" +:+ b.

Definition demo_dir : list proto.FileInfo :=
  [demo_file "blog/post/a" 5 3; demo_file "blog/post/b" 6 4;
   demo_file "blog/post/c" 7 5].

(** The cache of the last pass: the entry of [a] is still valid, the entry of
    [b] has an older modification time, [c] has none. *)
Definition cachedA : PostData := demo_post "blog/post/a" "Old title" 50 5 3 false.
Definition staleB : PostData := demo_post "blog/post/b" "Second" 60 1 4 false.
Definition freshB : PostData := demo_post "blog/post/b" "Second" 60 6 4 false.

Definition demo_cache : gmap string PostData :=
  <["blog/post/a" := cachedA]> (<["blog/post/b" := staleB]> ∅).

(** What [loadPost] returns in this blog. Under their full names [a] and [b]
    parse (the title of [a] is newer than the cached one) and [c] cannot be
    read. The blog also has a copy of [a] and of [b] at its root, which is
    where a bare name of the listing leads; there is nothing else. *)
Definition freshA : PostData := demo_post "a" "New title" 50 5 3 false.
Definition bareB : PostData := demo_post "b" "Second" 60 6 4 false.

Definition demo_load (name : string) : loadResult :=
  if String.eqb name "blog/post/a" then
    LoadOk (demo_post "blog/post/a" "New title" 50 5 3 false) "body of a"
  else if String.eqb name "blog/post/b" then LoadOk freshB "body of b"
  else if String.eqb name "blog/post/c" then LoadErr "read error"
  else if String.eqb name "a" then LoadOk freshA "body of a"
  else if String.eqb name "b" then LoadOk bareB "body of b"
  else LoadErr "no such file".

Definition demo_clock (i : nat) : time.Time := 100%Z.

(** Where the refresh phase of this blog ends. *)
Definition demo_final : state :=
  mkState MClosed 0 [cachedA; freshB] [] None
    ["loadPost blog/post/c: read error"]
    ["blog/post/b"; "blog/post/c"] 2 2.

(** Two sorts that keep the promise of [sort.Sort]: a merge sort, which is
    stable, and the same sort run on the reversed slice, which is not. *)
Definition not_less (less : PostData -> PostData -> bool) : relation PostData :=
  λ x y, less y x = false.

#[global] Instance not_less_dec less x y : Decision (not_less less x y).
Proof. unfold not_less. apply _. Defined.

Definition stable_sort (less : PostData -> PostData -> bool)
  (l : list PostData) : list PostData :=
  merge_sort (not_less less) l.


(** A draft that names alice as a reader: no date, not excluded from the
    index. *)
Definition secret_draft : PostData :=
  mkPostData 7%Z 120%Z "Secret plans" (mkBlogTime time.zero) "blog/post/secret"
    EmptyString EmptyString false false EmptyString EmptyString ["alice"]
    EmptyString EmptyString EmptyString EmptyString EmptyString false
    EmptyString.


Definition demo_config : Config :=
  mkConfig "Petar" "petar@example.org" "petar" "1234" "key"
    "http://blog.example.org" "tag:blog.example.org,2012:feed" "A blog".

(** A template that prints the article, and an encoder that prints the feed's
    title: enough to run a feed pass to its end. *)
Definition demo_Execute (meta : PostData) : error + string := inr (article meta).
Definition demo_Marshal (f : atom_Feed) : error + string := inr (feed_Title f).

(** A file system for the feed pass: the posts lie where it looks for them,
    and the snapshot of the index pass is the file [blogcache]. *)
Definition plain_Read (name : string) : error + (string * proto.FileInfo) :=
  if String.eqb name "a" then inr ("abc", demo_file "a" 5 3)
  else if String.eqb name "b" then inr ("abcd", demo_file "b" 6 4)
  else if String.eqb name "c" then inr ("abcde", demo_file "c" 7 5)
  else if String.eqb name "blogcache" then inr ("{}", demo_file "blogcache" 8 2)
  else inl "no such file".


(** Stand-ins for the decoders and the replacer in a file system whose posts
    have no metadata header and none of the replaced glyphs: the decoders are
    never called, and the replacer changes nothing. *)
Definition json_unused (_ : Unmarshaler blogTime) (_ : string) (_ : PostData)
  : error + PostData := inl "unexpected end of JSON input".
Definition parse_unused (_ _ : string) : option time.Time := None.
Definition replace_plain (_ : list (string * string)) (body : string) : string :=
  body.



(** * The handlers: [serve], [toc] and the output cache *)

(** [strings.Contains(s, substr)] *)
Definition strings_Contains (s substr : string) : bool :=
  match String.index 0 substr s with Some _ => true | None => false end.

(** [meta.Comments = true] *)
Definition set_Comments (d : PostData) (b : bool) : PostData :=
  mkPostData (FileModTime d) (FileSize d) (Title d) (Date d) (Name d)
    (OldURL d) (Summary d) (Favorite d) (NotInTOC d) (Aux d) (Author d)
    (Reader d) (PlusAuthor d) (PlusPage d) (PlusAPIKey d) (PlusURL d)
    (HostURL d) b (article d).

(** The key [toc] looks the index page up under:
    [fmt.Sprintf("blog:toc:%v", draft)], then the [readdir] form value when it
    is not empty, then the user in draft mode. *)
Definition toc_key (draft : bool) (readdir user : string) : string :=
  let keystr := "blog:toc:" +:+ (if draft then "true" else "false") in
  let keystr :=
    if negb (String.eqb readdir EmptyString)
    then keystr +:+ ",readdir=" +:+ readdir else keystr in
  if draft then keystr +:+ ",user=" +:+ user else keystr.

(** What [serve] ends up doing with a request. [toc], [atomfeed] and
    [notfound] are calls it hands the request to. *)
Inductive disposition :=
| DRedirect (p : string)                 (* http.Redirect(w, req, p, 302) *)
| DFeed                                  (* atomfeed(w, req) *)
| DToc (draft isOwner : bool) (user : string)   (* toc(w, req, draft, isOwner, user) *)
| DNotFound                              (* notfound(ctxt, w, req) *)
| DFile (name : string)                  (* ctxt.ServeFile(w, req, name) *)
| DWrite (data : string)                 (* w.Write(data) *)
| DPanic (p : panicValue).               (* a panic, recovered into a 500 answer *)

(** How a call of [toc] ends: the cached page is written, or [gentoc] runs. *)
Inductive tocReply :=
| TocCached (data : string)
| TocFresh (out : tocOutcome).

Section Server.
Variable config : Config.
Variable req_Host : string.
Variable load : string -> loadResult.
(** [path.Clean] *)
Variable path_Clean : string -> string.
(** The output cache of appfs, as a value the handlers pass on:
    [c.CacheLoad(name, path, &data)] finds the data or not, and
    [c.CacheStore(key, data)] stores it under the name and path the key was
    made for. *)
Variable Cache : Type.
Variable cache_Load : Cache -> string -> string -> option string.
Variable cache_Store : Cache -> string -> string -> string -> Cache.
(** [mainTemplate(ctxt)], the parse of the article and [t.Execute(&buf, meta)]:
    the page, or the error the first failing call panics with. *)
Variable main_Execute : PostData -> string -> error + string.

(** [func serve(w, req)]. [url_Path] is [req.URL.Path], [user] is
    [ctxt.User()], [isAdmin] is [aeu.IsAdmin(...)] and [now] is the reading of
    the clock in [meta.IsDraft()]. *)
Definition serve (cache : Cache) (url_Path user : string) (isAdmin : bool)
  (now : time.Time) : disposition * Cache :=
  let p := path_Clean ("/" +:+ url_Path) in
  if negb (String.eqb p url_Path) then (DRedirect p, cache)
  else if String.eqb p "/feed.atom" then (DFeed, cache)
  else
    let isOwner := isAdmin || String.eqb user (cfg_Account config) in
    if String.eqb p EmptyString || String.eqb p "/" || String.eqb p "/draft"
    then
      if String.eqb p "/draft" && String.eqb user "?" then (DNotFound, cache)
      else (DToc (String.eqb p "/draft") isOwner user, cache)
    else if String.prefix "/draft/" p && String.eqb user "?"
    then (DNotFound, cache)
    else
      let draft := String.prefix "/draft/" p in
      let p := if draft then bytes_from (String.length "/draft") p else p in
      if strings_Contains p "." then (DFile ("blog/static/" +:+ p), cache)
      else
        let pp := "bloghtml:" +:+ p in
        let pp :=
          if draft && negb isOwner then pp +:+ ",user=" +:+ user else pp in
        match cache_Load cache pp "blog" with
        | Some data => (DWrite data, cache)
        | None =>
            match load p with
            | LoadPanic msg => (DPanic (PanicString msg), cache)
            | LoadErr _ => (DNotFound, cache)
            | LoadOk meta article =>
                if negb (Bool.eqb (IsDraft now meta) draft)
                   || (draft && negb isOwner && negb (canRead meta user))
                then (DNotFound, cache)
                else
                  match main_Execute (set_Comments meta true) article with
                  | inl err => (DPanic (PanicError err), cache)
                  | inr data => (DWrite data, cache_Store cache pp "blog" data)
                  end
            end
        end.

(** What [serve] looks a post page up under, for a request it takes as far as
    the cache. *)
Definition post_key (draft isOwner : bool) (p user : string) : string :=
  if draft && negb isOwner then "bloghtml:" +:+ p +:+ ",user=" +:+ user
  else "bloghtml:" +:+ p.

Variable fs_ReadDir : string -> error + list proto.FileInfo.
Variable sort_Sort :
  (PostData -> PostData -> bool) -> list PostData -> list PostData.
Variable atom_Execute : PostData -> error + string.
Variable xml_Marshal : atom_Feed -> error + string.
Variable clock : nat -> time.Time.


Variable fs_Read : string -> error + (string * proto.FileInfo).
Variable path_Join : string -> string -> string.
Variable ctxt_User : string.
Variable json_UnmarshalCache : string -> gmap string PostData * option error.
Variable json_MarshalCache : gmap string PostData -> error + string.
Variable fs_Write : string -> string -> option error.
Variable toc_Execute : TocData -> error + string.

(** The page [gentoc] wrote, when it came as far as writing one. *)
Definition toc_page (out : tocOutcome) : option string :=
  match out with
  | TocPage _ _ _ page _ => Some page
  | _ => None
  end.

(** The cache after [gentoc] has ended as [out]: a rendered page is stored
    under the key. *)
Definition toc_store (cache : Cache) (key : string) (out : tocOutcome) : Cache :=
  match out with
  | TocPage _ _ _ page _ => cache_Store cache key "blog" page
  | _ => cache
  end.

(** [func toc(w, req, draft, isOwner, user)]: the reply and the cache
    afterwards. [gentoc] has more than one possible outcome, so has [toc]. *)
Inductive toc (cache : Cache) (fuel : nat) (readdir : string)
  (draft isOwner : bool) (user : string) : tocReply -> Cache -> Prop :=
| toc_hit data :
    cache_Load cache (toc_key draft readdir user) "blog" = Some data ->
    toc cache fuel readdir draft isOwner user (TocCached data) cache
| toc_miss out :
    cache_Load cache (toc_key draft readdir user) "blog" = None ->
    gentoc config req_Host load fs_Read fs_ReadDir path_Join ctxt_User
      json_UnmarshalCache json_MarshalCache fs_Write sort_Sort toc_Execute
      clock fuel readdir draft isOwner user out ->
    toc cache fuel readdir draft isOwner user (TocFresh out)
      (toc_store cache (toc_key draft readdir user) out).
End Server.

(** [func (x byTime) Len() int] and [func (x byTime) Swap(i, j int)]; an index
    out of range panics. *)
Definition byTime_Len (x : list PostData) : nat := length x.

Definition byTime_Swap (x : list PostData) (i j : nat)
  : panicValue + list PostData :=
  match x !! i, x !! j with
  | Some xi, Some xj => inr (<[j := xi]> (<[i := xj]> x))
  | None, _ => inl (PanicIndex i (length x))
  | _, None => inl (PanicIndex j (length x))
  end.

(** ** The directories a walk comes to, and what it takes from each *)

Section Walk.
Variable fs_ReadDir : string -> error + list proto.FileInfo.
Variable path_Join : string -> string -> string.

(** The files of the directory [rpath], under their full names, and the full
    names of its subdirectories, both in listing order. *)
Definition files (rpath : string) (children : list proto.FileInfo)
  : list proto.FileInfo :=
  (λ d, set_Name d (path_Join rpath (proto.Name d)))
    <$> filter (λ d, proto.IsDir d = false) children.

Definition subdirs (rpath : string) (children : list proto.FileInfo)
  : list string :=
  (λ d, path_Join rpath (proto.Name d))
    <$> filter (λ d, proto.IsDir d = true) children.

(** [under p0 p]: the directory [p] is [p0] or is reached from it through
    entries that the listings mark as directories. *)
Inductive under : string -> string -> Prop :=
| under_refl p : under p p
| under_step p0 children d p :
    fs_ReadDir p0 = inr children -> d ∈ children -> proto.IsDir d = true ->
    under (path_Join p0 (proto.Name d)) p -> under p0 p.

(** The number of directories at and below [p], counted down to depth [n];
    and the tree below [p] has no directory deeper than [n]. A directory that
    cannot be listed ends the walk, so nothing is asked of it. *)
Fixpoint dirs_below (n : nat) (p : string) : nat :=
  match fs_ReadDir p with
  | inl _ => 1
  | inr children =>
      match n with
      | O => 1
      | S n' => 1 + sum_list_with (dirs_below n') (subdirs p children)
      end
  end.

Fixpoint depth_le (n : nat) (p : string) : Prop :=
  match fs_ReadDir p with
  | inl _ => True
  | inr children =>
      match n with
      | O => subdirs p children = []
      | S n' => Forall (depth_le n') (subdirs p children)
      end
  end.
End Walk.

(** An output cache for the small blog: a finite map on name and path. *)
Definition demo_Cache : Type := gmap (string * string) string.
Definition demo_cache_Load (c : demo_Cache) (name path : string) : option string :=
  c !! (name, path).
Definition demo_cache_Store (c : demo_Cache) (name path data : string)
  : demo_Cache := <[(name, path) := data]> c.

(** A draft of the owner's and a template that prints the title.
    [demo_Clean] does what [path.Clean] does to a slash followed by a clean
    rooted path, which is all the examples ask of it: it takes the doubled
    slash away. *)
Definition owners_draft : PostData :=
  demo_post "/plans" "Plans" 0 5 3 false.
Definition demo_main_Execute (meta : PostData) (article : string)
  : error + string := inr (Title meta +:+ ": " +:+ article).
Definition demo_Clean (p : string) : string :=
  match p with String "/" rest => rest | _ => p end.
Definition draft_load (name : string) : loadResult :=
  if String.eqb name "/plans" then LoadOk owners_draft "to do"
  else LoadErr "no such file".

(** A blog with a subdirectory: [blog/post] holds [a] and the directory
    [2012], which holds [b]. *)
Definition tree_ReadDir (root : string) : error + list proto.FileInfo :=
  if String.eqb root "blog/post" then
    inr [demo_file "a" 5 3; proto.mkFileInfo "2012" 6%Z 0%Z true]
  else if String.eqb root "blog/post/2012" then inr [demo_file "b" 7 4]
  else inl "not a directory".

Definition torn_ReadDir (root : string) : error + list proto.FileInfo :=
  if String.eqb root "blog/post" then
    inr [demo_file "a" 5 3; proto.mkFileInfo "2012" 6%Z 0%Z true]
  else inl "permission denied".

(** The small blog with its snapshot on file: [blogcache] decodes to
    [demo_cache], the new snapshot is written, and the index template prints
    the titles. *)
Definition snapshot_Read (name : string) : error + (string * proto.FileInfo) :=
  if String.eqb name "blogcache" then inr ("snapshot", demo_file "blogcache" 8 8)
  else inl "no such file".
Definition demo_UnmarshalCache (_ : string) : gmap string PostData * option error :=
  (demo_cache, None).
Definition demo_MarshalCache (_ : gmap string PostData) : error + string :=
  inr "snapshot".
Definition demo_Write (_ _ : string) : option error := None.
Definition demo_toc_Execute (data : TocData) : error + string :=
  inr (foldr (λ m acc, Title m +:+ ";" +:+ acc) EmptyString (Posts data)).

(** A blog in which every file of the listing is a published post. *)
Definition published_load (name : string) : loadResult :=
  LoadOk (demo_post name "Post" 50 5 3 false) "text".

(** The feed of that blog: all three posts have the same date, and the sort
    at hand leaves them in the order [c], [a], [b]. *)
Definition published_feed : atom_Feed :=
  mkFeed "A blog" "tag:blog.example.org,2012:feed" 50%Z
    ("Petar", "https://plus.google.com/1234", "petar@example.org")
    "http://blog.example.org/feed.atom"
    ((λ name,
        atomfeed_entry "tag:blog.example.org,2012:feed"
          (set_article (demo_post name "Post" 50 5 3 false) "text") "text")
       <$> ["c"; "a"; "b"]).

(** A post with an empty metadata block, and a decoder that stores nothing. *)
Definition headed_Read (name : string) : error + (string * proto.FileInfo) :=
  inr ("{" +:+ nl +:+ "}" +:+ nl +:+ "text", demo_file name 5 3).
Definition json_keep (_ : Unmarshaler blogTime) (_ : string) (meta : PostData)
  : error + PostData := inr meta.

(** * Properties *)

(** ** The timestamp decoder *)

Section DecoderFacts.
Variable time_Parse : string -> string -> option time.Time.

Lemma blogTime_range_first formats str t i f parsed :
  formats !! i = Some f ->
  time_Parse (layout f) str = Some parsed ->
  (∀ j g, j < i -> formats !! j = Some g ->
          time_Parse (layout g) str = None) ->
  blogTime_range time_Parse formats str t = (mkBlogTime parsed, None).
Proof.
  revert i. induction formats as [|g formats IH]; intros i Hi Hp Hbefore.
  - discriminate.
  - destruct i as [|i]; simpl in *.
    + injection Hi as ->. now rewrite Hp.
    + pose proof (Hbefore 0 g ltac:(lia) eq_refl) as Hg.
      rewrite Hg.
      apply (IH i); auto.
      intros j h Hj Hh. apply (Hbefore (S j) h); [lia | exact Hh].
Qed.

Lemma blogTime_range_none formats str t :
  (∀ f, f ∈ formats -> time_Parse (layout f) str = None) ->
  blogTime_range time_Parse formats str t
  = (t, Some ("did not recognize time: " +:+ str)).
Proof.
  induction formats as [|g formats IH]; intros Hall; simpl.
  - reflexivity.
  - pose proof (Hall g ltac:(left)) as Hg. rewrite Hg.
    apply IH. intros f Hf. apply Hall. now right.
Qed.

Lemma blogTime_range_ok formats str t t' :
  blogTime_range time_Parse formats str t = (t', None) ->
  ∃ i f, formats !! i = Some f
         ∧ time_Parse (layout f) str = Some (Time_of t')
         ∧ ∀ j g, j < i -> formats !! j = Some g ->
                  time_Parse (layout g) str = None.
Proof.
  induction formats as [|g formats IH]; simpl; intros H.
  - discriminate.
  - destruct (time_Parse (layout g) str) as [p|] eqn:Hg.
    + injection H as <-. exists 0, g. repeat split; auto.
      intros j h Hj. lia.
    + destruct (IH H) as (i & f & Hi & Hp & Hbefore).
      exists (S i), f. repeat split; auto.
      intros [|j] h Hj Hh; simpl in Hh.
      * now injection Hh as <-.
      * apply (Hbefore j h); [lia | exact Hh].
Qed.

(** C7. [UnmarshalJSON] tries exactly three formats, in the order RFC 3339,
    then weekday-month-day-year, then month-day-year-hour-offset: the receiver
    becomes the result of the first format that [time.Parse] accepts (every
    format before it having been refused) and no error is returned; when
    [time.Parse] refuses all three the receiver is left as it was and the
    error "did not recognize time" is returned; and a call that returns no
    error has taken its value from such a first accepted format. *)
Theorem C7_UnmarshalJSON_tries_three_formats_in_order (data : string) (t : blogTime) :
  timeFormats = [ time.RFC3339; "Monday, January 2, 2006";
                  "January 2, 2006 15:00 -0700" ]
  ∧ (∀ i f parsed,
       timeFormats !! i = Some f ->
       time_Parse (layout f) data = Some parsed ->
       (∀ j g, j < i -> timeFormats !! j = Some g ->
               time_Parse (layout g) data = None) ->
       blogTime_UnmarshalJSON time_Parse data t = (mkBlogTime parsed, None))
  ∧ ((∀ f, f ∈ timeFormats -> time_Parse (layout f) data = None) ->
       blogTime_UnmarshalJSON time_Parse data t
       = (t, Some ("did not recognize time: " +:+ data)))
  ∧ (∀ t', blogTime_UnmarshalJSON time_Parse data t = (t', None) ->
       ∃ i f, timeFormats !! i = Some f
              ∧ time_Parse (layout f) data = Some (Time_of t')
              ∧ ∀ j g, j < i -> timeFormats !! j = Some g ->
                       time_Parse (layout g) data = None).
Proof.
  split; [reflexivity|]. unfold blogTime_UnmarshalJSON. repeat split.
  - intros i f parsed. apply blogTime_range_first.
  - apply blogTime_range_none.
  - intros t'. apply blogTime_range_ok.
Qed.
End DecoderFacts.

(** ** The refresh phase: invariants of every reachable state *)

Section RefresherFacts.
Variable load : string -> loadResult.
Variable postCache : gmap string PostData.
Variable dir : list proto.FileInfo.

Local Notation "s ~> t" := (step load postCache dir s t) (at level 70).
Local Abbreviation reach := (reachable load postCache dir).

Ltac step_cases H :=
  destruct H; simpl in *; rewrite ?sum_list_with_app in *; simpl in *.

Lemma reachable_ind (P : state -> Prop) :
  P (init dir) ->
  (∀ s t, reach s -> P s -> s ~> t -> P t) ->
  ∀ s, reach s -> P s.
Proof.
  intros Hinit Hstep. unfold reachable.
  apply rtc_ind_r; [exact Hinit|].
  intros s t Hs Hst HP. eapply Hstep; eauto.
Qed.

Ltac by_reach :=
  match goal with
  | |- reachable _ _ _ ?s -> _ =>
      revert s;
      match goal with |- ∀ s, _ -> @?P s => apply (reachable_ind P) end
  end.

Lemma after_load_weights d r g line :
  after_load d r = (g, line) -> permit g = 1 ∧ sends g ≤ 1 ∧ work g ≤ 2.
Proof. destruct r; intros [= <- <-]; simpl; lia. Qed.



(** Permits are conserved: in the channel, held by a goroutine, or received
    by the wait loop. *)
Lemma permits_conserved s :
  reach s -> limit s + sum_list_with permit (gs s) + drained (pc s) = par.
Proof.
  by_reach; [reflexivity|].
  intros s' t _ IH H. step_cases H; try lia.
  apply after_load_weights in H. lia.
Qed.

(** Every permit taken by the dispatch loop is held or has been given back. *)
Lemma acquired_released s :
  reach s -> acquired s = released s + sum_list_with permit (gs s).
Proof.
  by_reach; [reflexivity|].
  intros s' t _ IH H. step_cases H; try lia.
  apply after_load_weights in H. lia.
Qed.

(** The dispatch loop takes one permit per stale item and none for a hit. *)
Lemma acquired_stale s :
  reach s ->
  acquired s + sum_list_with (is_stale postCache) (unvisited (pc s))
  = sum_list_with (is_stale postCache) dir.
Proof.
  by_reach; [simpl; lia|].
  intros s' t _ IH H. unfold is_stale, stale in *.
  step_cases H; try lia.
  - rewrite H in IH. lia.
  - rewrite H in IH. lia.
Qed.

(** [ch] has room for every record still to come. *)
Lemma ch_room s :
  reach s ->
  length (ch s) + sum_list_with sends (gs s) + length (unvisited (pc s))
  ≤ length dir.
Proof.
  by_reach; [simpl; lia|].
  intros s' t _ IH H. step_cases H; rewrite ?length_app in *; simpl in *; try lia.
  apply after_load_weights in H. lia.
Qed.









(** Records are conserved: what [ch] holds, what the goroutines have still to
    send and what the unvisited items will contribute make up what the
    listing resolves to. *)
Lemma records_kept s :
  reach s ->
  ch s ++ (gs s ≫= yield load) ++ (unvisited (pc s) ≫= resolved load postCache)
  ≡ₚ dir ≫= resolved load postCache.
Proof.
  by_reach; [simpl; reflexivity|].
  intros s' t _ IH H. rewrite <- IH. clear IH.
  unfold resolved, resolve in *.
  step_cases H; rewrite ?bind_app, ?bind_cons; simpl; try solve_Permutation.
  - rewrite H. simpl. solve_Permutation.
  - rewrite H. destruct (load (proto.Name d)); simpl; solve_Permutation.
  - unfold after_load in H.
    destruct (load (proto.Name d)); injection H as <- <-; simpl; solve_Permutation.
Qed.

Lemma lines_kept s :
  reach s ->
  log s ++ (gs s ≫= lines load) ++ (unvisited (pc s) ≫= failed load postCache)
  ≡ₚ dir ≫= failed load postCache.
Proof.
  by_reach; [simpl; reflexivity|].
  intros s' t _ IH H. rewrite <- IH. clear IH.
  unfold failed, failure, stale in *.
  step_cases H; rewrite ?bind_app, ?bind_cons; simpl; try solve_Permutation.
  - rewrite H. simpl. solve_Permutation.
  - rewrite H. destruct (load (proto.Name d)); simpl; solve_Permutation.
  - unfold after_load in H.
    destruct (load (proto.Name d)); injection H as <- <-; simpl; solve_Permutation.
Qed.

Lemma loads_kept s :
  reach s ->
  loads s ++ (gs s ≫= to_load) ++ (unvisited (pc s) ≫= stale_name postCache)
  ≡ₚ dir ≫= stale_name postCache.
Proof.
  by_reach; [simpl; reflexivity|].
  intros s' t _ IH H. rewrite <- IH. clear IH.
  unfold stale_name, stale in *.
  step_cases H; rewrite ?bind_app, ?bind_cons; simpl; try solve_Permutation.
  - rewrite H. simpl. solve_Permutation.
  - rewrite H. simpl; solve_Permutation.
  - unfold after_load in H.
    destruct (load (proto.Name d)); injection H as <- <-; simpl; solve_Permutation.
Qed.
(** *** What holds once [ch] is closed *)

Lemma bind_option_list {A B} (f : A -> option B) (l : list A) :
  l ≫= (λ x, option_list (f x)) = omap f l.
Proof.
  induction l as [|x l IH]; [reflexivity|].
  rewrite bind_cons, IH. simpl. now destruct (f x).
Qed.

Lemma bind_stale_name (l : list proto.FileInfo) :
  l ≫= stale_name postCache = proto.Name <$> staleItems postCache l.
Proof.
  unfold staleItems. induction l as [|d l IH]; [reflexivity|].
  rewrite bind_cons, IH. unfold stale_name.
  destruct (stale postCache d) eqn:Hd.
  - now rewrite filter_cons_True by exact Hd.
  - rewrite filter_cons_False; [reflexivity|]. congruence.
Qed.

Lemma sum_is_stale (l : list proto.FileInfo) :
  sum_list_with (is_stale postCache) l = length (staleItems postCache l).
Proof.
  unfold staleItems. induction l as [|d l IH]; [reflexivity|].
  simpl. rewrite IH. unfold is_stale.
  destruct (stale postCache d) eqn:Hd.
  - now rewrite filter_cons_True by exact Hd.
  - rewrite filter_cons_False; [reflexivity|]. congruence.
Qed.



(** Goroutines that hold no permit have panicked: they have nothing left to
    send, to log or to parse. *)
Lemma no_permit_out (g : list goroutine) :
  sum_list_with permit g = 0 ->
  g ≫= yield load = [] ∧ g ≫= lines load = [] ∧ g ≫= to_load = []
  ∧ Forall (λ x, ∃ msg, x = GPanic msg) g.
Proof.
  induction g as [|x g IH]; [now repeat split|].
  intros H. destruct x; simpl in H; try lia.
  destruct (IH H) as (Hy & Hl & Ht & Hf).
  rewrite !bind_cons, Hy, Hl, Ht. repeat split; eauto.
Qed.

Lemma closed_facts s :
  reach s -> pc s = MClosed ->
  limit s = 0 ∧ sum_list_with permit (gs s) = 0
  ∧ released s = acquired s
  ∧ acquired s = length (staleItems postCache dir)
  ∧ ch s ≡ₚ omap (resolve load postCache) dir
  ∧ log s ≡ₚ omap (failure load postCache) dir
  ∧ loads s ≡ₚ proto.Name <$> staleItems postCache dir.
Proof.
  intros Hs Hpc.
  pose proof (permits_conserved s Hs) as Hp.
  pose proof (acquired_released s Hs) as Har.
  pose proof (acquired_stale s Hs) as Has.
  pose proof (records_kept s Hs) as Hrec.
  pose proof (lines_kept s Hs) as Hlin.
  pose proof (loads_kept s Hs) as Hld.
  rewrite Hpc in *. simpl in *.
  assert (Hz : sum_list_with permit (gs s) = 0) by lia.
  destruct (no_permit_out _ Hz) as (Hy & Hl & Ht & _).
  rewrite Hy in Hrec. rewrite Hl in Hlin. rewrite Ht in Hld.
  rewrite !app_nil_r in *.
  unfold resolved in Hrec. unfold failed in Hlin.
  rewrite bind_option_list in Hrec. rewrite bind_option_list in Hlin.
  rewrite bind_stale_name in Hld. rewrite sum_is_stale in Has.
  repeat split; auto; lia.
Qed.




Lemma cacheLookup_Some d meta :
  cacheLookup postCache d = Some meta
  ↔ postCache !! proto.Name d = Some meta
    ∧ FileModTime meta = proto.ModTime d
    ∧ FileSize meta = proto.Size d.
Proof.
  unfold cacheLookup, time.Equal.
  destruct (postCache !! proto.Name d) as [m|]; [|split; [done|now intros [? _]]].
  destruct (Z.eqb_spec (FileModTime m) (proto.ModTime d)) as [Ht|Ht];
    destruct (Z.eqb_spec (FileSize m) (proto.Size d)) as [Hz|Hz]; simpl;
    split; try done; try (intros [[= ->] [? ?]]; done).
  intros [= ->]. done.
Qed.

(** C4. A cached entry is reused exactly when the loaded cache has an entry
    under the item's name whose recorded modification time and size both equal
    the listing's. When the dispatch loop moves past an item, a reused entry
    goes to [ch] as it is, no permit is taken, no goroutine is started and
    [loadPost] is not called; any other item costs a permit and gets a
    goroutine that will call [loadPost] on it. Once [ch] is closed, the names
    [loadPost] was called with are the names of the stale items, each once. *)
Theorem C4_cached_entry_reused_iff_modtime_and_size_match s :
  reach s ->
  (∀ d meta,
     cacheLookup postCache d = Some meta
     ↔ postCache !! proto.Name d = Some meta
       ∧ FileModTime meta = proto.ModTime d
       ∧ FileSize meta = proto.Size d)
  ∧ (∀ d rest t,
       pc s = MRange (d :: rest) -> s ~> t -> pc t = MRange rest ->
       match cacheLookup postCache d with
       | Some meta =>
           ch t = ch s ++ [meta] ∧ limit t = limit s ∧ gs t = gs s
           ∧ loads t = loads s ∧ acquired t = acquired s
       | None =>
           ch t = ch s ∧ S (limit t) = limit s ∧ gs t = gs s ++ [GLoad d]
           ∧ loads t = loads s ∧ acquired t = S (acquired s)
       end)
  ∧ (pc s = MClosed ->
       loads s ≡ₚ proto.Name <$> staleItems postCache dir
       ∧ (∀ d meta, d ∈ dir -> cacheLookup postCache d = Some meta ->
                    meta ∈ ch s)
       ∧ (∀ d, d ∈ dir -> cacheLookup postCache d = None ->
               proto.Name d ∈ loads s)
       ∧ (∀ name, name ∈ loads s ->
            ∃ d, d ∈ dir ∧ proto.Name d = name
                 ∧ cacheLookup postCache d = None)).
Proof.
  intros Hs. split; [apply cacheLookup_Some|]. split.
  - intros d rest t Hpc Hst Ht.
    destruct Hst; simpl in *; try discriminate.
    + injection Hpc as -> ->. now rewrite H.
    + injection Hpc as -> ->. now rewrite H.
    + subst p. injection Ht as Ht.
      apply (f_equal length) in Ht. simpl in Ht. lia.
    + subst p. injection Ht as Ht.
      apply (f_equal length) in Ht. simpl in Ht. lia.
    + subst p. injection Ht as Ht.
      apply (f_equal length) in Ht. simpl in Ht. lia.
    + subst p. injection Ht as Ht.
      apply (f_equal length) in Ht. simpl in Ht. lia.
    + subst p. injection Ht as Ht.
      apply (f_equal length) in Ht. simpl in Ht. lia.
  - intros Hpc.
    destruct (closed_facts s Hs Hpc) as (_ & _ & _ & _ & Hch & _ & Hld).
    split; [exact Hld|]. split; [|split].
    + intros d meta Hd Hhit. rewrite Hch. apply list_elem_of_omap.
      exists d. split; [exact Hd|]. unfold resolve. now rewrite Hhit.
    + intros d Hd Hmiss. rewrite Hld. apply list_elem_of_fmap.
      exists d. split; [reflexivity|]. unfold staleItems.
      apply list_elem_of_filter. unfold stale. now rewrite Hmiss.
    + intros name Hin. rewrite Hld in Hin.
      apply list_elem_of_fmap in Hin as (d & -> & Hd).
      unfold staleItems in Hd. apply list_elem_of_filter in Hd as [Hst Hd].
      exists d. repeat split; auto. unfold stale in Hst.
      now destruct (cacheLookup postCache d).
Qed.
End RefresherFacts.

(** ** The index: filter, cache rebuild, order *)

Lemma canRead_elem (d : PostData) (user : string) :
  canRead d user = true ↔ user ∈ Reader d.
Proof.
  unfold canRead. induction (Reader d) as [|r rs IH]; simpl.
  - split; [discriminate | intros H; inversion H].
  - destruct (String.eqb_spec r user) as [->|Hne].
    + split; [intros _; left | reflexivity].
    + rewrite IH. split; [intros H; now right|].
      intros H. inversion H; subst; [congruence | assumption].
Qed.

Lemma IsDraft_spec (now : time.Time) (d : PostData) :
  IsDraft now d = true
  ↔ Time_of (Date d) = time.zero ∨ (now < Time_of (Date d))%Z.
Proof.
  unfold IsDraft, time.IsZero, time.After, time.zero.
  rewrite orb_true_iff, Z.eqb_eq, Z.ltb_lt. reflexivity.
Qed.

Lemma indexed_lookup {A} i (l : list A) j x :
  (i + j, x) ∈ indexed i l ↔ l !! j = Some x.
Proof.
  revert i j. induction l as [|y l IH]; intros i j; unfold indexed; simpl.
  - split; [intros H; inversion H | discriminate].
  - rewrite elem_of_cons. destruct j as [|j]; simpl.
    + split.
      * intros [[= _ ->]|H]; [reflexivity|].
        apply elem_of_zip_l in H. apply elem_of_seq in H. lia.
      * intros [= ->]. left. f_equal. lia.
    + rewrite <- (IH (S i) j). unfold indexed.
      replace (S i + j) with (i + S j) by lia.
      split; [intros [[= ? _]|H]; [lia | exact H] | now right].
Qed.

Lemma indexed_elem {A} i (l : list A) k x :
  (k, x) ∈ indexed i l -> ∃ j, k = i + j ∧ l !! j = Some x.
Proof.
  intros H. pose proof (elem_of_zip_l _ _ _ _ H) as Hk.
  apply elem_of_seq in Hk. exists (k - i).
  split; [lia|]. apply (indexed_lookup i). now replace (i + (k - i)) with k by lia.
Qed.

Lemma omap_nil_Forall {A B} (f : A -> option B) (l : list A) :
  Forall (λ x, f x = None) l -> omap f l = [].
Proof. induction 1 as [|x l Hx _ IH]; simpl; [reflexivity|]. now rewrite Hx. Qed.

Section AssemblerFacts.
Variables (draft isOwner : bool) (user : string).
Variable clock : nat -> time.Time.

Lemma gentoc_range_fst metas : ∀ i postCache all,
  (gentoc_range draft isOwner user clock i metas postCache all).1
  = foldl (λ m meta, <[Name meta := meta]> m) postCache metas.
Proof.
  induction metas as [|meta metas IH]; intros i postCache all; simpl.
  - reflexivity.
  - apply IH.
Qed.

Lemma gentoc_range_snd metas : ∀ i postCache all,
  (gentoc_range draft isOwner user clock i metas postCache all).2
  = all ++ (filter (kept draft isOwner user clock) (indexed i metas)).*2.
Proof.
  induction metas as [|meta metas IH]; intros i postCache all; simpl.
  - now rewrite app_nil_r.
  - rewrite IH. unfold indexed. simpl.
    destruct (toc_keep draft isOwner user (clock i) meta) eqn:Hk.
    + rewrite filter_cons_True by exact Hk. simpl. now rewrite <- app_assoc.
    + rewrite filter_cons_False; [reflexivity|]. unfold kept. simpl. congruence.
Qed.

(** The record met at index [j] is shown exactly when the condition of the
    loop holds of it at that moment. *)
Lemma gentoc_collect_shown metas j m :
  metas !! j = Some m ->
  ((j, m) ∈ filter (kept draft isOwner user clock) (indexed 0 metas)
   ↔ toc_keep draft isOwner user (clock j) m = true).
Proof.
  intros Hj. rewrite list_elem_of_filter. unfold kept. simpl.
  rewrite <- (indexed_lookup 0 metas j m) in Hj. simpl in Hj. tauto.
Qed.
End AssemblerFacts.

(** C1. What the loop over [ch] really tests. In draft mode a record is shown
    exactly when the caller is the owner or is on the record's reader list.
    In published mode a record is shown when it is neither a draft nor
    excluded from the index, and also whenever the caller is on its reader
    list: the reader test is not guarded by the mode. So the published index
    built for alice lists [secret_draft], which is a draft. *)
Theorem C1_published_index_also_admits_listed_readers :
  (∀ isOwner user now m,
     toc_keep true isOwner user now m = true
     ↔ isOwner = true ∨ user ∈ Reader m)
  ∧ (∀ isOwner user now m,
       toc_keep false isOwner user now m = true
       ↔ (IsDraft now m = false ∧ NotInTOC m = false) ∨ user ∈ Reader m)
  ∧ IsDraft 100%Z secret_draft = true
  ∧ (gentoc_collect false false "alice" (λ _, 100%Z) [secret_draft]).2
    = [secret_draft].
Proof.
  split; [|split; [|split; reflexivity]].
  - intros isOwner user now m. unfold toc_keep. simpl.
    rewrite orb_true_iff, andb_true_r, canRead_elem. reflexivity.
  - intros isOwner user now m. unfold toc_keep. simpl.
    rewrite andb_false_r, orb_false_r, orb_true_iff, andb_true_iff,
      !negb_true_iff, canRead_elem. reflexivity.
Qed.

Lemma byTime_Less_false (x y : PostData) :
  byTime_Less y x = false ↔ (Time_of (Date y) ≤ Time_of (Date x))%Z.
Proof. unfold byTime_Less, time.After. rewrite Z.ltb_ge. reflexivity. Qed.


Lemma lookup_foldl_insert (metas : list PostData) :
  ∀ (postCache : gmap string PostData) name m,
  NoDup (Name <$> metas) ->
  foldl (λ c meta, <[Name meta := meta]> c) postCache metas !! name = Some m
  ↔ (m ∈ metas ∧ Name m = name)
    ∨ ((name ∉ (Name <$> metas)) ∧ postCache !! name = Some m).
Proof.
  induction metas as [|x metas IH]; intros postCache name m Hnd; simpl.
  - split; [intros H; right; split; [inversion 1 | exact H]|].
    intros [[H _]|[_ H]]; [inversion H | exact H].
  - apply NoDup_cons in Hnd as [Hx Hnd]. rewrite (IH _ _ _ Hnd).
    rewrite !elem_of_cons. destruct (decide (Name x = name)) as [Heq|Hne].
    + subst name. rewrite lookup_insert_eq. split.
      * intros [[Hm Hn]|[_ [= ->]]]; [|left; auto].
        exfalso. apply Hx. rewrite <- Hn. apply list_elem_of_fmap. eauto.
      * intros [[[->|Hm] Hn]|[Hn _]].
        -- right. split; [exact Hx | reflexivity].
        -- exfalso. apply Hx. rewrite <- Hn. apply list_elem_of_fmap. eauto.
        -- exfalso. apply Hn. now left.
    + rewrite lookup_insert_ne by exact Hne. split.
      * intros [[Hm Hn]|[Hn Hl]]; [left; auto|].
        right. split; [|exact Hl]. intros [?|?]; [congruence | auto].
      * intros [[[->|Hm] Hn]|[Hn Hl]]; [congruence | left; auto |].
        right. split; [|exact Hl]. intros ?. apply Hn. now right.
Qed.


Lemma lookup_foldl_insert_Some (metas : list PostData) :
  ∀ (postCache : gmap string PostData) name m,
  foldl (λ c meta, <[Name meta := meta]> c) postCache metas !! name = Some m ->
  (m ∈ metas ∧ Name m = name) ∨ postCache !! name = Some m.
Proof.
  induction metas as [|x metas IH]; intros postCache name m; simpl; [now right|].
  intros H. apply IH in H as [[Hm Hn]|H].
  - left. split; [now right | exact Hn].
  - destruct (decide (Name x = name)) as [Heq|Hne].
    + subst name. rewrite lookup_insert_eq in H. injection H as ->.
      left. split; [now left | reflexivity].
    + rewrite lookup_insert_ne in H by exact Hne. now right.
Qed.


(** ** The feed *)

(** The loop that appends the favorites writes into the array it is reading
    from, but only at places it has already read: what it leaves in [show] is
    the first ten followed by the favorites among the rest, in their order. *)
Lemma show_range_spec (all : list PostData) k : ∀ arr n j,
  10 ≤ n ≤ j -> j + k = length all -> length arr = length all ->
  drop j arr = drop j all ->
  take n arr = take 10 all ++ filter isFavorite (take (j - 10) (drop 10 all)) ->
  take (show_range arr n j k).2 (show_range arr n j k).1
  = take 10 all ++ filter isFavorite (drop 10 all).
Proof.
  induction k as [|k IH]; intros arr n j Hn Hjk Hlen Hdrop Htake; simpl.
  - rewrite Htake. f_equal. f_equal. apply take_ge. rewrite length_drop. lia.
  - assert (Hj : j < length arr) by lia.
    destruct (lookup_lt_is_Some_2 arr j Hj) as [meta Hmeta].
    rewrite Hmeta.
    assert (Hall : all !! j = Some meta).
    { rewrite <- (Nat.add_0_r j), <- lookup_drop, <- Hdrop, lookup_drop, Nat.add_0_r.
      exact Hmeta. }
    assert (Hstep : take (S j - 10) (drop 10 all)
                    = take (j - 10) (drop 10 all) ++ [meta]).
    { replace (S j - 10) with (S (j - 10)) by lia.
      apply take_S_r. rewrite lookup_drop. now replace (10 + (j - 10)) with j by lia. }
    destruct (Favorite meta) eqn:Hfav.
    + unfold slice_append.
      destruct (n <? length arr) eqn:Hlt; [|apply Nat.ltb_ge in Hlt; lia].
      apply Nat.ltb_lt in Hlt.
      apply IH.
      * lia.
      * lia.
      * now rewrite length_insert.
      * rewrite drop_insert_lt by lia.
        replace (S j) with (j + 1) by lia. rewrite <- !drop_drop. now rewrite Hdrop.
      * rewrite (take_S_r _ n meta) by (apply list_lookup_insert_eq; lia).
        rewrite take_insert. destruct (decide (n < n)) as [?|_]; [lia|].
        rewrite Htake, Hstep, filter_app, <- app_assoc. f_equal. f_equal.
        rewrite filter_cons_True by exact Hfav. reflexivity.
    + apply IH.
      * lia.
      * lia.
      * exact Hlen.
      * replace (S j) with (j + 1) by lia. rewrite <- !drop_drop. now rewrite Hdrop.
      * rewrite Htake, Hstep, filter_app. f_equal.
        rewrite filter_cons_False, filter_nil, app_nil_r; [reflexivity|].
        unfold isFavorite. congruence.
Qed.

Lemma atomfeed_show_spec (all : list PostData) :
  atomfeed_show all = take 10 all ++ filter isFavorite (drop 10 all).
Proof.
  unfold atomfeed_show. destruct (10 <? length all) eqn:Hlen.
  - apply Nat.ltb_lt in Hlen.
    pose proof (show_range_spec all (length all - 10) all 10 10) as H.
    destruct (show_range all 10 10 (length all - 10)) as [arr n]. simpl in H.
    apply H; auto; try lia.
    simpl. now rewrite app_nil_r.
  - apply Nat.ltb_ge in Hlen.
    rewrite take_ge, drop_ge by lia. simpl. now rewrite app_nil_r.
Qed.

Lemma atomfeed_entries_Forall2 atom_Execute id show : ∀ acc entries,
  atomfeed_entries atom_Execute id show acc = inr entries ->
  ∃ new, entries = acc ++ new
         ∧ Forall2 (λ meta e, ∃ body, atom_Execute meta = inr body
                                      ∧ e = atomfeed_entry id meta body)
             show new.
Proof.
  induction show as [|meta show IH]; intros acc entries; simpl.
  - intros [= <-]. exists []. split; [now rewrite app_nil_r | constructor].
  - destruct (atom_Execute meta) as [err|body] eqn:Hx; [discriminate|].
    intros H. apply IH in H as (new & -> & Hnew).
    exists (atomfeed_entry id meta body :: new).
    split; [now rewrite <- app_assoc|]. constructor; eauto.
Qed.

(** A feed pass that succeeds has one entry per record shown, in order. *)
Lemma atomfeed_inr config req_Host load fs_ReadDir sort_Sort atom_Execute
  xml_Marshal clock f data :
  atomfeed config req_Host load fs_ReadDir sort_Sort atom_Execute xml_Marshal
    clock = inr (f, data) ->
  ∃ dir records,
    fs_ReadDir "blog/post" = inr dir
    ∧ atomfeed_range load clock 0 dir [] = inr records
    ∧ Forall2 (λ meta e, ∃ body, atom_Execute meta = inr body
                                 ∧ e = atomfeed_entry (FeedID config) meta body)
        (atomfeed_show (sort_Sort byTime_Less records)) (feed_Entry f).
Proof.
  unfold atomfeed.
  destruct (fs_ReadDir "blog/post") as [err|dir] eqn:Hdir; [discriminate|].
  destruct (atomfeed_range load clock 0 dir []) as [p|records] eqn:Hrange;
    [discriminate|].
  destruct (atomfeed_show (sort_Sort byTime_Less records)) as [|first rest] eqn:Hshow;
    [discriminate|].
  destruct (atomfeed_entries atom_Execute (FeedID config) (first :: rest) [])
    as [p|entries] eqn:He; [discriminate|].
  destruct (xml_Marshal _) as [err|d]; [discriminate|].
  intros [= <- <-]. exists dir, records.
  split; [reflexivity|]. split; [exact Hrange|]. simpl. rewrite Hshow.
  apply atomfeed_entries_Forall2 in He as (new & -> & Hnew). exact Hnew.
Qed.

(** C3. Of the published records in descending publish time, the feed shows
    the first ten in that order, then every favorite among the rest in the
    order they have there, and nothing else. When the list is in descending
    order, no record after the tenth is more recent than one of the first
    ten. With fifteen records of which two of the last five are favorites,
    the feed has twelve entries: the first ten, then those two. The entries
    of the feed that [atomfeed] builds are those of the records so selected
    from its sorted records, one each, in order. *)
Theorem C3_feed_shows_ten_most_recent_then_favorites (all : list PostData) :
  atomfeed_show all = take 10 all ++ filter isFavorite (drop 10 all)
  ∧ (∀ config req_Host load fs_ReadDir sort_Sort atom_Execute xml_Marshal
       clock f data,
       atomfeed config req_Host load fs_ReadDir sort_Sort atom_Execute
         xml_Marshal clock = inr (f, data) ->
       ∃ dir records,
         fs_ReadDir "blog/post" = inr dir
         ∧ atomfeed_range load clock 0 dir [] = inr records
         ∧ Forall2 (λ meta e, ∃ body, atom_Execute meta = inr body
                        ∧ e = atomfeed_entry (FeedID config) meta body)
             (atomfeed_show (sort_Sort byTime_Less records)) (feed_Entry f))
  ∧ ((∀ i j x y, i < j -> all !! i = Some x -> all !! j = Some y ->
        byTime_Less y x = false) ->
     ∀ x y, x ∈ take 10 all -> y ∈ drop 10 all ->
       (Time_of (Date y) ≤ Time_of (Date x))%Z)
  ∧ (length all = 15 ->
     length (filter isFavorite (drop 10 all)) = 2 ->
     length (atomfeed_show all) = 12
     ∧ take 10 (atomfeed_show all) = take 10 all
     ∧ drop 10 (atomfeed_show all) = filter isFavorite (drop 10 all)).
Proof.
  split; [apply atomfeed_show_spec|].
  split; [intros; eapply atomfeed_inr; eassumption|].
  split.
  - intros Hsorted x y Hx Hy.
    apply list_elem_of_lookup in Hx as [i Hi], Hy as [j Hj].
    apply lookup_take_Some in Hi as [Hi Hlt].
    rewrite lookup_drop in Hj.
    apply byTime_Less_false, (Hsorted i (10 + j)); auto. lia.
  - intros Hlen Hfav. rewrite atomfeed_show_spec.
    assert (Ht : length (take 10 all) = 10) by (rewrite length_take; lia).
    split; [rewrite length_app; lia|]. split.
    + rewrite take_app_le by lia. rewrite take_ge by lia. reflexivity.
    + rewrite drop_app_ge by lia. rewrite Ht. reflexivity.
Qed.

Section FeedFacts.
Variable config : Config.
Variable req_Host : string.
Variable load : string -> loadResult.
Variable fs_ReadDir : string -> error + list proto.FileInfo.
Variable sort_Sort :
  (PostData -> PostData -> bool) -> list PostData -> list PostData.
Variable atom_Execute : PostData -> error + string.
Variable xml_Marshal : atom_Feed -> error + string.
Variable clock : nat -> time.Time.

Lemma atomfeed_range_inr dir : ∀ i all all',
  atomfeed_range load clock i dir all = inr all' ->
  (∀ d, d ∈ dir -> ∃ meta article, load (proto.Name d) = LoadOk meta article)
  ∧ all' = all ++ omap (published load clock) (indexed i dir).
Proof.
  induction dir as [|d dir IH]; intros i all all'; simpl.
  - intros [= <-]. split; [intros d H; inversion H | now rewrite app_nil_r].
  - unfold published at 1. simpl.
    destruct (load (proto.Name d)) as [meta article|err|msg] eqn:Hd;
      try discriminate.
    destruct (IsDraft (clock i) meta); intros H; apply IH in H as [Hall ->].
    + split; [|reflexivity].
      intros d' [->|Hd']%elem_of_cons; eauto.
    + split; [|now rewrite <- app_assoc].
      intros d' [->|Hd']%elem_of_cons; eauto.
Qed.

Lemma atomfeed_range_inl dir : ∀ i all p,
  atomfeed_range load clock i dir all = inl p ->
  ∃ d, d ∈ dir
       ∧ ((∃ err, load (proto.Name d) = LoadErr err ∧ p = PanicError err)
          ∨ (∃ msg, load (proto.Name d) = LoadPanic msg ∧ p = PanicString msg)).
Proof.
  induction dir as [|d dir IH]; intros i all p; simpl; [discriminate|].
  destruct (load (proto.Name d)) as [meta article|err|msg] eqn:Hd.
  - destruct (IsDraft (clock i) meta); intros H; apply IH in H as (d' & Hd' & H);
      exists d'; (split; [now right | exact H]).
  - intros [= <-]. exists d. split; [now left | left; eauto].
  - intros [= <-]. exists d. split; [now left | right; eauto].
Qed.


Lemma atomfeed_entries_inl id show : ∀ entries p,
  atomfeed_entries atom_Execute id show entries = inl p -> ∃ err, p = PanicError err.
Proof.
  induction show as [|meta show IH]; intros entries p; simpl; [discriminate|].
  destruct (atom_Execute meta) as [err|body]; [intros [= <-]; eauto | apply IH].
Qed.

Local Abbreviation feed :=
  (atomfeed config req_Host load fs_ReadDir sort_Sort atom_Execute xml_Marshal clock).

(** How a feed pass goes wrong and what it shows when it does not. *)
Lemma atomfeed_cases dir :
  fs_ReadDir "blog/post" = inr dir ->
  match atomfeed_range load clock 0 dir [] with
  | inl p => feed = inl p
  | inr all =>
      match atomfeed_show (sort_Sort byTime_Less all) with
      | [] => feed = inl (PanicIndex 0 0)
      | first :: rest =>
          (∃ err, feed = inl (PanicError err))
          ∨ (∃ f data, feed = inr (f, data)
                       ∧ feed_Updated f = Time_of (Date first)
                       ∧ length (feed_Entry f) = S (length rest))
      end
  end.
Proof.
  intros Hdir. unfold atomfeed. rewrite Hdir.
  destruct (atomfeed_range load clock 0 dir []) as [p|all]; [reflexivity|].
  destruct (atomfeed_show (sort_Sort byTime_Less all)) as [|first rest] eqn:Hshow;
    [reflexivity|].
  destruct (atomfeed_entries atom_Execute (FeedID config) (first :: rest) [])
    as [p|entries] eqn:He.
  - apply atomfeed_entries_inl in He as [err ->]. left. eauto.
  - destruct (xml_Marshal _) as [err|data] eqn:Hx; [left; eauto|].
    right. eexists _, _. split; [reflexivity|]. simpl. split; [reflexivity|].
    clear Hx Hshow.
    assert (Hlen : ∀ show acc entries',
      atomfeed_entries atom_Execute (FeedID config) show acc = inr entries' ->
      length entries' = length acc + length show).
    { induction show as [|m show IH]; intros acc entries'; simpl.
      - intros [= <-]. lia.
      - destruct (atom_Execute m); [discriminate|].
        intros H. apply IH in H. rewrite length_app in H. simpl in H. lia. }
    apply Hlen in He. simpl in He. exact He.
Qed.

(** C9. With the listing read and [sort.Sort] keeping its promise: when every
    entry parses and every record is a draft, [atomfeed] panics on [show[0]],
    the index being out of range; when some entry parses to a record that is
    not a draft, [atomfeed] does not panic on [show[0]] (it may still fail on
    another entry, a template or the encoder, with an error value). *)
Theorem C9_feed_fails_on_show_0_iff_nothing_is_published
  (Hsort : sorts_byTime sort_Sort) (dir : list proto.FileInfo) :
  fs_ReadDir "blog/post" = inr dir ->
  ((∀ d, d ∈ dir -> ∃ meta article, load (proto.Name d) = LoadOk meta article) ->
   (∀ j d meta article, dir !! j = Some d ->
      load (proto.Name d) = LoadOk meta article ->
      IsDraft (clock j) meta = true) ->
   feed = inl (PanicIndex 0 0))
  ∧ ((∃ j d meta article, dir !! j = Some d
        ∧ load (proto.Name d) = LoadOk meta article
        ∧ IsDraft (clock j) meta = false) ->
     feed ≠ inl (PanicIndex 0 0)).
Proof.
  intros Hdir. pose proof (atomfeed_cases dir Hdir) as Hcases.
  destruct (atomfeed_range load clock 0 dir []) as [p|all] eqn:Hrange.
  - split.
    + intros Hok _. apply atomfeed_range_inl in Hrange as (d & Hd & H).
      destruct (Hok d Hd) as (meta & article & Hl).
      destruct H as [(err & He & _)|(msg & He & _)]; congruence.
    + intros _. rewrite Hcases.
      apply atomfeed_range_inl in Hrange as (d & _ & [(err & _ & ->)|(msg & _ & ->)]);
        discriminate.
  - apply atomfeed_range_inr in Hrange as [Hok Hall]. simpl in Hall.
    destruct (Hsort all) as [Hperm _].
    rewrite atomfeed_show_spec in Hcases. split.
    + intros _ Hdraft.
      assert (all = []) as ->.
      { subst all. apply omap_nil_Forall. apply Forall_forall. intros [k d] Hkd.
        apply indexed_elem in Hkd as (j & -> & Hjd).
        unfold published. simpl.
        destruct (load (proto.Name d)) as [meta article| |] eqn:Hl; auto.
        now rewrite (Hdraft j d meta article Hjd Hl). }
      symmetry in Hperm. apply Permutation_nil in Hperm.
      rewrite Hperm in Hcases. exact Hcases.
    + intros (j & d & meta & article & Hj & Hl & Hnd).
      assert (Hin : set_article meta article ∈ all).
      { subst all. apply list_elem_of_omap. exists (j, d). split.
        - apply (indexed_lookup 0). exact Hj.
        - unfold published. simpl. now rewrite Hl, Hnd. }
      rewrite <- Hperm in Hin.
      destruct (sort_Sort byTime_Less all) as [|first rest]; [inversion Hin|].
      simpl in Hcases.
      destruct Hcases as [[err ->]|(f & data & -> & _)]; discriminate.
Qed.
End FeedFacts.

(** ** The parser, and what a failed parse does to a pass *)

Section ParserFacts.
Variable config : Config.
Variable req_Host : string.
Variable fs_Read : string -> error + (string * proto.FileInfo).
Variable json_Unmarshal :
  Unmarshaler blogTime -> string -> PostData -> error + PostData.
Variable time_Parse : string -> string -> option time.Time.
Variable strings_Replace : list (string * string) -> string -> string.

Local Abbreviation parse :=
  (loadPost config req_Host fs_Read json_Unmarshal time_Parse strings_Replace).




End ParserFacts.




(** ** [gentoc] as a whole *)

Section IndexFacts.
Variable config : Config.
Variable req_Host : string.
Variable load : string -> loadResult.
Variable fs_Read : string -> error + (string * proto.FileInfo).
Variable fs_ReadDir : string -> error + list proto.FileInfo.
Variable path_Join : string -> string -> string.
Variable ctxt_User : string.
Variable json_UnmarshalCache : string -> gmap string PostData * option error.
Variable json_MarshalCache : gmap string PostData -> error + string.
Variable fs_Write : string -> string -> option error.
Variable sort_Sort :
  (PostData -> PostData -> bool) -> list PostData -> list PostData.
Variable toc_Execute : TocData -> error + string.
Variable clock : nat -> time.Time.

(** A call of [gentoc] that renders a page has walked the tree, run the
    refresh phase until [ch] was closed, rebuilt the map from the records on
    [ch] and sorted the records the filter kept. *)
Lemma gentoc_page fuel readdir draft isOwner user written persisted posts page lns :
  gentoc config req_Host load fs_Read fs_ReadDir path_Join ctxt_User
    json_UnmarshalCache json_MarshalCache fs_Write sort_Sort toc_Execute clock
    fuel readdir draft isOwner user (TocPage written persisted posts page lns) ->
  ∃ dir s,
    readDirEllipses fs_ReadDir path_Join fuel "blog/post" = Some (inr dir)
    ∧ reachable load (loadCache fs_Read json_UnmarshalCache).1 dir s
    ∧ pc s = MClosed
    ∧ written = (gentoc_collect draft isOwner user clock (ch s)).1
    ∧ posts = sort_Sort byTime_Less
                (gentoc_collect draft isOwner user clock (ch s)).2.
Proof.
  intros H. inversion H as [| | |dir s Hscan Hrd Hs Hpc Hc Htail]; subst.
  exists dir, s. repeat split; auto.
  - unfold gentoc_tail in Htail.
    destruct (gentoc_collect draft isOwner user clock (ch s)) as [c all].
    destruct (saveCache _ _ c). destruct (toc_Execute _); [discriminate|].
    now injection Htail.
  - unfold gentoc_tail in Htail.
    destruct (gentoc_collect draft isOwner user clock (ch s)) as [c all].
    destruct (saveCache _ _ c). destruct (toc_Execute _); [discriminate|].
    now injection Htail.
Qed.
End IndexFacts.

(** The walk of the small blog finds its three posts, under their full names. *)
Lemma demo_scan :
  readDirEllipses demo_ReadDir demo_Join 1 "blog/post" = Some (inr demo_dir).
Proof. reflexivity. Qed.

(** One run of the refresh phase of the small blog, from the start to the close
    of [ch]: the hit for [a], the two goroutines, the twenty receives. *)
Lemma demo_run : reachable demo_load demo_cache demo_dir demo_final.
Proof.
  unfold reachable, init, demo_dir.
  eapply rtc_l.
  { apply (step_hit _ _ _ _ _ cachedA); [vm_compute; reflexivity | simpl; lia]. }
  eapply rtc_l. { apply step_go. vm_compute; reflexivity. }
  eapply rtc_l. { apply step_go. vm_compute; reflexivity. }
  eapply rtc_l. { apply step_range_end. }
  eapply rtc_l.
  { apply (step_load _ _ _ _ (demo_file "blog/post/b" 6 4) []
             [GLoad (demo_file "blog/post/c" 7 5)]). reflexivity. }
  eapply rtc_l.
  { apply (step_send _ _ _ _ freshB [] [GLoad (demo_file "blog/post/c" 7 5)]).
    simpl. lia. }
  eapply rtc_l.
  { apply (step_defer _ _ _ _ [] [GLoad (demo_file "blog/post/c" 7 5)]).
    unfold par. lia. }
  eapply rtc_l.
  { apply (step_load _ _ _ _ (demo_file "blog/post/c" 7 5) [] []). reflexivity. }
  eapply rtc_l. { apply (step_defer _ _ _ _ [] []). unfold par. lia. }
  simpl.
  do 20 (eapply rtc_l; [apply step_wait; unfold par; lia|]).
  eapply rtc_l. { apply step_close. unfold par. lia. }
  apply rtc_refl.
Qed.

#[local] Instance not_less_byTime_trans : Transitive (not_less byTime_Less).
Proof.
  intros x y z. unfold not_less. rewrite !byTime_Less_false. lia.
Qed.

#[local] Instance not_less_byTime_total : Total (not_less byTime_Less).
Proof.
  intros x y. unfold not_less. rewrite !byTime_Less_false. lia.
Qed.

Lemma StronglySorted_lookup {A} (R : relation A) (l : list A) :
  StronglySorted R l ->
  ∀ i j x y, i < j -> l !! i = Some x -> l !! j = Some y -> R x y.
Proof.
  induction 1 as [|a l _ IH Hall]; intros i j x y Hij Hi Hj; [discriminate|].
  destruct j as [|j]; [lia|]. simpl in Hj. destruct i as [|i]; simpl in Hi.
  - injection Hi as <-. rewrite Forall_forall in Hall.
    apply Hall. apply list_elem_of_lookup. eauto.
  - apply (IH i j); auto. lia.
Qed.

(** Both sorts keep the promise of [sort.Sort]. *)
Lemma stable_sort_sorts : sorts_byTime stable_sort.
Proof.
  intros l. unfold stable_sort. split; [apply merge_sort_Permutation|].
  intros i j x y Hij Hi Hj.
  exact (StronglySorted_lookup _ _
           (StronglySorted_merge_sort (not_less byTime_Less) l) i j x y Hij Hi Hj).
Qed.


(** ** The theorems at work on the small blog *)


(** C4 at the end of that run: [loadPost] was called for [b] and [c], not for
    [a]. *)
Lemma C4_demo_run_parses_only_stale_items :
  reachable demo_load demo_cache demo_dir demo_final
  ∧ loads demo_final ≡ₚ proto.Name <$> staleItems demo_cache demo_dir.
Proof.
  pose proof (C4_cached_entry_reused_iff_modtime_and_size_match
                demo_load demo_cache demo_dir demo_final demo_run) as H.
  split; [exact demo_run|].
  destruct H as (_ & _ & Hclosed). exact (proj1 (Hclosed eq_refl)).
Defined.




(** C9 on the small blog: [a] parses to a published record, so the feed pass
    does not fail on [show[0]]. *)
Lemma C9_demo_feed_does_not_fail_on_show_0 :
  sorts_byTime stable_sort
  ∧ demo_ReadDir "blog/post" = inr demo_listing
  ∧ atomfeed demo_config "blog.example.org" demo_load demo_ReadDir stable_sort
      demo_Execute demo_Marshal demo_clock
    ≠ inl (PanicIndex 0 0).
Proof.
  split; [exact stable_sort_sorts|]. split; [reflexivity|].
  apply (C9_feed_fails_on_show_0_iff_nothing_is_published demo_config
           "blog.example.org" demo_load demo_ReadDir stable_sort demo_Execute
           demo_Marshal demo_clock stable_sort_sorts demo_listing eq_refl).
  exists 0, (demo_file "a" 5 3), freshA, "body of a". now repeat split.
Defined.




(** ** Two more properties of the pipeline *)

(** A content file with no metadata block parses to a record that carries
    the placeholder title and no publish time, so it is a draft at any
    moment; the body is the whole file after the replacer, and the record has
    the file's modification time and size. *)
Theorem loadPost_without_header_is_a_draft
  (config : Config) (req_Host : string)
  (fs_Read : string -> error + (string * proto.FileInfo))
  (json_Unmarshal : Unmarshaler blogTime -> string -> PostData -> error + PostData)
  (time_Parse : string -> string -> option time.Time)
  (strings_Replace : list (string * string) -> string -> string)
  (name art : string) (fi : proto.FileInfo) (now : time.Time) :
  fs_Read name = inr (art, fi) ->
  String.prefix ("{" +:+ nl) art = false ->
  ∃ meta,
    loadPost config req_Host fs_Read json_Unmarshal time_Parse strings_Replace name
    = LoadOk meta (strings_Replace replacer art)
    ∧ Title meta = "¿Title?" ∧ Name meta = name
    ∧ Time_of (Date meta) = time.zero ∧ IsDraft now meta = true
    ∧ FileModTime meta = proto.ModTime fi ∧ FileSize meta = proto.Size fi.
Proof.
  intros Hr Hp. unfold loadPost. rewrite Hr, Hp.
  eexists. split; [reflexivity|]. now repeat split.
Qed.

(** On the plain file system, [a] is such a file. *)
Lemma loadPost_without_header_demo :
  ∃ meta,
    loadPost demo_config "blog.example.org" plain_Read json_unused parse_unused
      replace_plain "a" = LoadOk meta "abc"
    ∧ Title meta = "¿Title?" ∧ Name meta = "a"
    ∧ Time_of (Date meta) = time.zero ∧ IsDraft 100%Z meta = true
    ∧ FileModTime meta = 5%Z ∧ FileSize meta = 3%Z.
Proof.
  exact (loadPost_without_header_is_a_draft demo_config "blog.example.org"
           plain_Read json_unused parse_unused replace_plain "a" "abc"
           (demo_file "a" 5 3) 100%Z eq_refl eq_refl).
Defined.



(** * The directory walk: [readDirEllipses] *)

Section WalkFacts.
Variable fs_ReadDir : string -> error + list proto.FileInfo.
Variable path_Join : string -> string -> string.

Local Abbreviation loop := (readDirEllipses_loop fs_ReadDir path_Join).
Local Abbreviation under' := (under fs_ReadDir path_Join).

Lemma readDir_children_spec rpath children : ∀ q r,
  readDir_children path_Join rpath children q r
  = (q ++ subdirs path_Join rpath children, r ++ files path_Join rpath children).
Proof.
  unfold subdirs, files.
  induction children as [|d children IH]; intros q r; simpl.
  - now rewrite !app_nil_r.
  - destruct (proto.IsDir d) eqn:Hd; rewrite IH.
    + rewrite filter_cons_True by exact Hd.
      rewrite filter_cons_False by congruence.
      simpl. now rewrite <- app_assoc.
    + rewrite filter_cons_False by congruence.
      rewrite filter_cons_True by exact Hd.
      simpl. now rewrite <- app_assoc.
Qed.

Lemma elem_of_subdirs rpath children p :
  p ∈ subdirs path_Join rpath children
  ↔ ∃ d, d ∈ children ∧ proto.IsDir d = true ∧ p = path_Join rpath (proto.Name d).
Proof.
  unfold subdirs. rewrite list_elem_of_fmap. split.
  - intros (d & -> & Hd). apply list_elem_of_filter in Hd as [? ?]. eauto.
  - intros (d & Hd & Hdir & ->). exists d. split; [reflexivity|].
    now apply list_elem_of_filter.
Qed.

Lemma elem_of_files rpath children e :
  e ∈ files path_Join rpath children
  ↔ ∃ d, d ∈ children ∧ proto.IsDir d = false
         ∧ e = set_Name d (path_Join rpath (proto.Name d)).
Proof.
  unfold files. rewrite list_elem_of_fmap. split.
  - intros (d & -> & Hd). apply list_elem_of_filter in Hd as [? ?]. eauto.
  - intros (d & Hd & Hdir & ->). exists d. split; [reflexivity|].
    now apply list_elem_of_filter.
Qed.

Lemma loop_inr fuel : ∀ q r res,
  loop fuel q r = Some (inr res) ->
  (∃ new, res = r ++ new
     ∧ ∀ e, e ∈ new ↔ ∃ q0 p children, q0 ∈ q ∧ under' q0 p
                         ∧ fs_ReadDir p = inr children
                         ∧ e ∈ files path_Join p children)
  ∧ (∀ q0 p, q0 ∈ q -> under' q0 p -> ∃ children, fs_ReadDir p = inr children).
Proof.
  induction fuel as [|fuel IH]; intros q r res; destruct q as [|rpath q]; simpl.
  - intros [= <-]. split.
    + exists []. split; [now rewrite app_nil_r|].
      intros e. split; [inversion 1|]. intros (q0 & _ & _ & H & _). inversion H.
    + intros q0 p H. inversion H.
  - discriminate.
  - intros [= <-]. split.
    + exists []. split; [now rewrite app_nil_r|].
      intros e. split; [inversion 1|]. intros (q0 & _ & _ & H & _). inversion H.
    + intros q0 p H. inversion H.
  - destruct (fs_ReadDir rpath) as [err|children] eqn:Hr; [discriminate|].
    rewrite readDir_children_spec. intros H.
    apply IH in H as [(new & -> & Hnew) Hok]. split.
    + exists (files path_Join rpath children ++ new).
      split; [now rewrite app_assoc|].
      intros e. rewrite elem_of_app, Hnew. split.
      * intros [He|(q0 & p & ch & Hq0 & Hu & Hp & He)].
        -- exists rpath, rpath, children. repeat split; auto; [left|constructor].
        -- apply elem_of_app in Hq0 as [Hq0|Hq0].
           ++ exists q0, p, ch. repeat split; auto. now right.
           ++ apply elem_of_subdirs in Hq0 as (d & Hd & Hdir & ->).
              exists rpath, p, ch. repeat split; auto; [left|].
              eapply under_step; eauto.
      * intros (q0 & p & ch & Hq0 & Hu & Hp & He).
        apply elem_of_cons in Hq0 as [->|Hq0].
        -- inversion Hu as [|? ch0 d ? Hr0 Hd Hdir Hu']; subst.
           ++ left. congruence.
           ++ right. exists (path_Join rpath (proto.Name d)), p, ch.
              repeat split; auto. apply elem_of_app. right.
              apply elem_of_subdirs. exists d. repeat split; auto. congruence.
        -- right. exists q0, p, ch. repeat split; auto. apply elem_of_app. now left.
    + intros q0 p Hq0 Hu. apply elem_of_cons in Hq0 as [->|Hq0].
      * inversion Hu as [|? ch0 d ? Hr0 Hd Hdir Hu']; subst; [eauto|].
        apply (Hok (path_Join rpath (proto.Name d)) p); auto.
        apply elem_of_app. right. apply elem_of_subdirs.
        exists d. repeat split; auto. congruence.
      * apply (Hok q0 p); auto. apply elem_of_app. now left.
Qed.

Lemma loop_inl fuel : ∀ q r err,
  loop fuel q r = Some (inl err) ->
  ∃ q0 p, q0 ∈ q ∧ under' q0 p ∧ fs_ReadDir p = inl err.
Proof.
  induction fuel as [|fuel IH]; intros q r err; destruct q as [|rpath q]; simpl;
    try discriminate.
  destruct (fs_ReadDir rpath) as [e|children] eqn:Hr.
  - intros [= ->]. exists rpath, rpath. repeat split; [left|constructor|exact Hr].
  - rewrite readDir_children_spec. intros H.
    apply IH in H as (q0 & p & Hq0 & Hu & Hp).
    apply elem_of_app in Hq0 as [Hq0|Hq0].
    + exists q0, p. repeat split; auto. now right.
    + apply elem_of_subdirs in Hq0 as (d & Hd & Hdir & ->).
      exists rpath, p. repeat split; auto; [left|]. eapply under_step; eauto.
Qed.

Lemma loop_more_fuel fuel : ∀ q r x k,
  loop fuel q r = Some x -> loop (fuel + k) q r = Some x.
Proof.
  induction fuel as [|fuel IH]; intros q r x k; destruct q as [|rpath q].
  - simpl. intros H. now destruct k.
  - discriminate.
  - simpl. auto.
  - simpl. destruct (fs_ReadDir rpath) as [e|children]; [auto|].
    destruct (readDir_children _ _ _ _ _) as [q'' r']. apply IH.
Qed.

Lemma sum_zip_replicate n (l : list string) :
  sum_list_with (λ pn, dirs_below fs_ReadDir path_Join pn.1 pn.2)
    (zip (replicate (length l) n) l)
  = sum_list_with (dirs_below fs_ReadDir path_Join n) l.
Proof. induction l as [|x l IH]; simpl; [reflexivity | now rewrite IH]. Qed.

Lemma Forall2_replicate n (l : list string) :
  Forall (depth_le fs_ReadDir path_Join n) l ->
  Forall2 (depth_le fs_ReadDir path_Join) (replicate (length l) n) l.
Proof. induction 1; simpl; constructor; auto. Qed.

(** The walk ends when the tree has a bounded depth: one unit of fuel per
    directory is enough. *)
Lemma loop_ends fuel : ∀ q ns r,
  Forall2 (depth_le fs_ReadDir path_Join) ns q ->
  sum_list_with (λ pn, dirs_below fs_ReadDir path_Join pn.1 pn.2) (zip ns q)
  ≤ fuel ->
  is_Some (loop fuel q r).
Proof.
  induction fuel as [|fuel IH]; intros q ns r Hd Hf.
  - destruct Hd as [|n p ns q Hp Hd]; [simpl; eauto|].
    simpl in Hf. destruct n; simpl in Hf; destruct (fs_ReadDir p); lia.
  - destruct Hd as [|n p ns q Hp Hd]; [simpl; eauto|].
    simpl. simpl in Hf.
    destruct (fs_ReadDir p) as [err|children] eqn:Hr; [eauto|].
    rewrite readDir_children_spec.
    destruct n as [|n]; simpl in Hp, Hf; rewrite Hr in Hp, Hf.
    + rewrite Hp, app_nil_r. apply (IH q ns); [exact Hd | ]. lia.
    + pose proof (sum_zip_replicate n (subdirs path_Join p children)) as Hsum.
      pose proof (Forall2_replicate n _ Hp) as Hall.
      apply (IH _ (ns ++ replicate (length (subdirs path_Join p children)) n)).
      * apply Forall2_app; [exact Hd | exact Hall].
      * rewrite zip_with_app by (now apply Forall2_length in Hd).
        rewrite sum_list_with_app, Hsum. lia.
Qed.

(** The walk returns a listing: it holds exactly the entries that are not
    directories of the root and of every directory reached from it, each under
    its joined name; the files of the root itself come first, in listing
    order; and every directory reached could be listed. *)
Theorem readDirEllipses_lists_the_files_of_every_directory_reached
  (fuel : nat) (root : string) (res : list proto.FileInfo) :
  readDirEllipses fs_ReadDir path_Join fuel root = Some (inr res) ->
  (∀ e, e ∈ res
        ↔ ∃ p children d,
            under' root p ∧ fs_ReadDir p = inr children ∧ d ∈ children
            ∧ proto.IsDir d = false
            ∧ e = set_Name d (path_Join p (proto.Name d)))
  ∧ Forall (λ e, proto.IsDir e = false) res
  ∧ (∃ children rest,
       fs_ReadDir root = inr children
       ∧ res = files path_Join root children ++ rest)
  ∧ (∀ p, under' root p -> ∃ children, fs_ReadDir p = inr children).
Proof.
  unfold readDirEllipses. intros H.
  pose proof (loop_inr fuel [root] [] res H) as [(new & -> & Hnew) Hok].
  simpl.
  assert (Hmem : ∀ e, e ∈ new
            ↔ ∃ p children d,
                under' root p ∧ fs_ReadDir p = inr children ∧ d ∈ children
                ∧ proto.IsDir d = false
                ∧ e = set_Name d (path_Join p (proto.Name d))).
  { intros e. rewrite Hnew. split.
    - intros (q0 & p & ch & Hq0 & Hu & Hp & He).
      apply list_elem_of_singleton in Hq0 as ->.
      apply elem_of_files in He as (d & Hd & Hdir & ->). eauto 10.
    - intros (p & ch & d & Hu & Hp & Hd & Hdir & ->).
      exists root, p, ch. repeat split; auto; [left|].
      apply elem_of_files. eauto. }
  split; [exact Hmem|]. split; [|split].
  - apply Forall_forall. intros e He.
    apply Hmem in He as (p & ch & d & _ & _ & _ & Hdir & ->). exact Hdir.
  - destruct fuel as [|fuel]; [discriminate|]. simpl in H.
    destruct (fs_ReadDir root) as [err|children] eqn:Hr; [discriminate|].
    rewrite readDir_children_spec in H. simpl in H.
    apply loop_inr in H as [(rest & Hres & _) _].
    exists children, rest. split; [reflexivity | exact Hres].
  - intros p Hu. apply (Hok root p); [left | exact Hu].
Qed.

(** A directory that cannot be listed makes the whole walk fail: when some
    directory reached from the root has no listing, the walk never returns a
    listing, whatever the fuel; and the error it returns is the error of a
    directory reached from the root. *)
Theorem readDirEllipses_is_all_or_nothing
  (root p : string) (err : error) :
  under' root p -> fs_ReadDir p = inl err ->
  ∀ fuel,
    match readDirEllipses fs_ReadDir path_Join fuel root with
    | Some (inr _) => False
    | Some (inl err') => ∃ p', under' root p' ∧ fs_ReadDir p' = inl err'
    | None => True
    end.
Proof.
  intros Hu Hp fuel. unfold readDirEllipses.
  destruct (loop fuel [root] []) as [[err'|res]|] eqn:H; [| |exact I].
  - apply loop_inl in H as (q0 & p' & Hq0 & Hu' & Hp').
    apply list_elem_of_singleton in Hq0 as ->. eauto.
  - apply loop_inr in H as [_ Hok].
    destruct (Hok root p ltac:(left) Hu) as [children Hc]. congruence.
Qed.

(** On a tree with no directory deeper than [n] the walk ends: fuel for one
    step per directory is enough, and more fuel gives the same. *)
Theorem readDirEllipses_ends_on_a_tree_of_bounded_depth
  (n fuel : nat) (root : string) :
  depth_le fs_ReadDir path_Join n root ->
  dirs_below fs_ReadDir path_Join n root ≤ fuel ->
  ∃ x, readDirEllipses fs_ReadDir path_Join fuel root = Some x
       ∧ ∀ k, readDirEllipses fs_ReadDir path_Join (fuel + k) root = Some x.
Proof.
  intros Hd Hf. unfold readDirEllipses.
  destruct (loop_ends fuel [root] [n] []) as [x Hx].
  - constructor; [exact Hd | constructor].
  - simpl. lia.
  - exists x. split; [exact Hx|]. intros k. now apply loop_more_fuel.
Qed.
End WalkFacts.


Lemma readDirEllipses_tree_demo :
  (∀ e, e ∈ [set_Name (demo_file "a" 5 3) "blog/post/a";
              set_Name (demo_file "b" 7 4) "blog/post/2012/b"]
        ↔ ∃ p children d,
            under tree_ReadDir demo_Join "blog/post" p
            ∧ tree_ReadDir p = inr children ∧ d ∈ children
            ∧ proto.IsDir d = false
            ∧ e = set_Name d (demo_Join p (proto.Name d)))
  ∧ Forall (λ e, proto.IsDir e = false)
      [set_Name (demo_file "a" 5 3) "blog/post/a";
       set_Name (demo_file "b" 7 4) "blog/post/2012/b"]
  ∧ (∃ children rest,
       tree_ReadDir "blog/post" = inr children
       ∧ [set_Name (demo_file "a" 5 3) "blog/post/a";
          set_Name (demo_file "b" 7 4) "blog/post/2012/b"]
         = files demo_Join "blog/post" children ++ rest)
  ∧ (∀ p, under tree_ReadDir demo_Join "blog/post" p ->
          ∃ children, tree_ReadDir p = inr children).
Proof.
  apply (readDirEllipses_lists_the_files_of_every_directory_reached
           tree_ReadDir demo_Join 3 "blog/post").
  reflexivity.
Defined.

Lemma readDirEllipses_torn_demo :
  torn_ReadDir "blog/post/2012" = inl "permission denied"
  ∧ ∀ fuel,
    match readDirEllipses torn_ReadDir demo_Join fuel "blog/post" with
    | Some (inr _) => False
    | Some (inl err') =>
        ∃ p', under torn_ReadDir demo_Join "blog/post" p'
              ∧ torn_ReadDir p' = inl err'
    | None => True
    end.
Proof.
  split; [reflexivity|].
  apply (readDirEllipses_is_all_or_nothing torn_ReadDir demo_Join
           "blog/post" "blog/post/2012" "permission denied").
  - apply (under_step torn_ReadDir demo_Join "blog/post"
             [demo_file "a" 5 3; proto.mkFileInfo "2012" 6%Z 0%Z true]
             (proto.mkFileInfo "2012" 6%Z 0%Z true)).
    + reflexivity.
    + right; left.
    + reflexivity.
    + apply under_refl.
  - reflexivity.
Defined.

Lemma readDirEllipses_tree_ends :
  ∃ x, readDirEllipses tree_ReadDir demo_Join 2 "blog/post" = Some x
       ∧ ∀ k, readDirEllipses tree_ReadDir demo_Join (2 + k) "blog/post" = Some x.
Proof.
  apply (readDirEllipses_ends_on_a_tree_of_bounded_depth
           tree_ReadDir demo_Join 1 2 "blog/post").
  - vm_compute. repeat constructor.
  - vm_compute. lia.
Defined.

(** * The handlers *)

Lemma substring_0_length (s : string) :
  String.substring 0 (String.length s) s = s.
Proof. induction s as [|c s IH]; simpl; [reflexivity | now rewrite IH]. Qed.

Lemma bytes_from_app (a b : string) :
  bytes_from (String.length a) (a +:+ b) = b.
Proof.
  unfold bytes_from. induction a as [|c a IH]; simpl.
  - rewrite Nat.sub_0_r. apply substring_0_length.
  - exact IH.
Qed.

Lemma prefix_app (a b : string) : String.prefix a (a +:+ b) = true.
Proof.
  induction a as [|c a IH]; simpl; [now destruct b|].
  destruct (Ascii.ascii_dec c c); [exact IH | congruence].
Qed.

Section ServerFacts.
Variable config : Config.
Variable req_Host : string.
Variable load : string -> loadResult.
Variable path_Clean : string -> string.
Variable Cache : Type.
Variable cache_Load : Cache -> string -> string -> option string.
Variable cache_Store : Cache -> string -> string -> string -> Cache.
Variable main_Execute : PostData -> string -> error + string.
Local Abbreviation serve' :=
  (serve config load path_Clean Cache cache_Load cache_Store main_Execute).

(** A visitor who is not logged in (the user is the question mark) gets the
    not-found answer for the draft index and for every URL under it, whatever
    the cache holds and whether or not the request counts as the
    administrator's; the cache is left as it was. *)
Theorem serve_hides_the_draft_area_from_a_visitor_not_logged_in
  (cache : Cache) (url_Path : string) (isAdmin : bool) (now : time.Time) :
  path_Clean ("/" +:+ url_Path) = url_Path ->
  url_Path = "/draft" ∨ String.prefix "/draft/" url_Path = true ->
  serve' cache url_Path "?" isAdmin now = (DNotFound, cache).
Proof.
  intros Hclean Hp. unfold serve. rewrite Hclean, String.eqb_refl. simpl.
  destruct Hp as [-> | Hp]; [reflexivity|].
  destruct (String.eqb_spec url_Path "/feed.atom") as [-> | _]; [discriminate|].
  destruct (String.eqb_spec url_Path EmptyString) as [-> | _]; [discriminate|].
  destruct (String.eqb_spec url_Path "/") as [-> | _]; [discriminate|].
  destruct (String.eqb_spec url_Path "/draft") as [-> | _]; [discriminate|].
  simpl. now rewrite Hp.
Qed.

(** When [serve] writes a post page, the page either came from the cache
    under the key of the request, or the post was parsed in this request, its
    draft state is the mode of the URL, in draft mode the caller is the owner
    or one of its readers, and the page rendered from it is what is stored
    under that key. In draft mode the caller is logged in. *)
Theorem serve_writes_a_page_from_the_cache_or_after_the_visibility_test
  (cache cache' : Cache) (url_Path user data : string) (isAdmin : bool)
  (now : time.Time) :
  serve' cache url_Path user isAdmin now = (DWrite data, cache') ->
  let isOwner := isAdmin || String.eqb user (cfg_Account config) in
  let draft := String.prefix "/draft/" url_Path in
  let p := if draft then bytes_from 6 url_Path else url_Path in
  let key := post_key draft isOwner p user in
  (draft = true -> user ≠ "?")
  ∧ ((cache_Load cache key "blog" = Some data ∧ cache' = cache)
     ∨ (cache_Load cache key "blog" = None
        ∧ ∃ meta article,
            load p = LoadOk meta article
            ∧ IsDraft now meta = draft
            ∧ (draft = true -> isOwner = true ∨ user ∈ Reader meta)
            ∧ main_Execute (set_Comments meta true) article = inr data
            ∧ cache' = cache_Store cache key "blog" data)).
Proof.
  unfold serve, post_key. simpl String.length.
  destruct (String.eqb_spec (path_Clean ("/" +:+ url_Path)) url_Path)
    as [-> | _]; [simpl | discriminate].
  destruct (String.eqb url_Path "/feed.atom"); [discriminate|].
  destruct (String.eqb url_Path EmptyString || String.eqb url_Path "/"
            || String.eqb url_Path "/draft").
  { destruct (_ && _); discriminate. }
  destruct (String.prefix "/draft/" url_Path) eqn:Hd; simpl.
  - destruct (String.eqb_spec user "?") as [-> | Hu]; [discriminate|]. simpl.
    set (p := bytes_from 6 url_Path).
    set (isOwner := isAdmin || String.eqb user (cfg_Account config)).
    destruct (strings_Contains p "."); [discriminate|].
    destruct (cache_Load cache _ "blog") as [d|] eqn:Hc.
    { intros [= -> ->]. split; [auto|]. left. auto. }
    destruct (load p) as [meta article | err | msg] eqn:Hl; try discriminate.
    destruct (IsDraft now meta) eqn:Hdr; simpl; [|discriminate].
    destruct (negb isOwner && negb (canRead meta user)) eqn:Hv; [discriminate|].
    destruct (main_Execute _ _) as [err | d] eqn:He; [discriminate|].
    intros [= -> <-]. split; [auto|]. right. split; [reflexivity|].
    exists meta, article. repeat split; auto.
    intros _. destruct isOwner; [left; reflexivity | right].
    simpl in Hv. apply negb_false_iff in Hv. now apply canRead_elem.
  - set (isOwner := isAdmin || String.eqb user (cfg_Account config)).
    destruct (strings_Contains url_Path "."); [discriminate|].
    destruct (cache_Load cache _ "blog") as [d|] eqn:Hc.
    { intros [= -> ->]. split; [discriminate|]. left. auto. }
    destruct (load url_Path) as [meta article | err | msg] eqn:Hl;
      try discriminate.
    destruct (IsDraft now meta) eqn:Hdr; simpl; [discriminate|].
    destruct (main_Execute _ _) as [err | d] eqn:He; [discriminate|].
    intros [= -> <-]. split; [discriminate|]. right. split; [reflexivity|].
    exists meta, article. repeat split; auto. discriminate.
Qed.

(** The page of a draft, once rendered for the owner under the draft URL, is
    stored under the key of the public URL: the owner's draft page has no user
    in its key. Before, the public URL of the draft gives not-found; after,
    it gives the stored page to every caller, logged in or not, at any
    moment, for as long as the cache keeps the entry. *)
Theorem serve_stores_the_owners_draft_page_under_the_public_key
  (cache : Cache) (p owner data article : string) (meta : PostData)
  (isAdmin : bool) (now : time.Time) :
  (∀ c name path v, cache_Load (cache_Store c name path v) name path = Some v) ->
  path_Clean ("/" +:+ "/draft" +:+ p) = "/draft" +:+ p ->
  path_Clean ("/" +:+ p) = p ->
  String.prefix "/" p = true ->
  p ≠ "/" -> p ≠ "/draft" -> p ≠ "/feed.atom" ->
  String.prefix "/draft/" p = false ->
  strings_Contains p "." = false ->
  owner ≠ "?" ->
  isAdmin || String.eqb owner (cfg_Account config) = true ->
  cache_Load cache ("bloghtml:" +:+ p) "blog" = None ->
  load p = LoadOk meta article ->
  IsDraft now meta = true ->
  main_Execute (set_Comments meta true) article = inr data ->
  let cache1 := cache_Store cache ("bloghtml:" +:+ p) "blog" data in
  serve' cache p owner isAdmin now = (DNotFound, cache)
  ∧ serve' cache ("/draft" +:+ p) owner isAdmin now = (DWrite data, cache1)
  ∧ ∀ user isAdmin' now',
      serve' cache1 p user isAdmin' now' = (DWrite data, cache1).
Proof.
  intros Hcache Hc1 Hc2 Hslash Hne1 Hne2 Hne3 Hnd Hdot Ho Hown Hmiss Hload Hdr
    Hex cache1.
  assert (Hp : ∀ c user adm t,
    serve' c p user adm t
    = match cache_Load c ("bloghtml:" +:+ p) "blog" with
      | Some d => (DWrite d, c)
      | None =>
          if negb (Bool.eqb (IsDraft t meta) false) then (DNotFound, c)
          else match main_Execute (set_Comments meta true) article with
               | inl err => (DPanic (PanicError err), c)
               | inr d => (DWrite d, cache_Store c ("bloghtml:" +:+ p) "blog" d)
               end
      end).
  { intros c user adm t. unfold serve. rewrite Hc2, String.eqb_refl. simpl.
    destruct (String.eqb_spec p "/feed.atom"); [contradiction|].
    destruct (String.eqb_spec p EmptyString) as [-> | _]; [discriminate|].
    destruct (String.eqb_spec p "/"); [contradiction|].
    destruct (String.eqb_spec p "/draft"); [contradiction|].
    simpl. rewrite Hnd. simpl. rewrite Hdot, Hload.
    destruct (cache_Load c _ "blog"); [reflexivity|].
    now rewrite orb_false_r. }
  split; [|split].
  - rewrite Hp, Hmiss, Hdr. reflexivity.
  - unfold serve. rewrite Hc1, String.eqb_refl.
    destruct p as [|c p']; [discriminate|].
    change (String.prefix "/" (String c p'))
      with (if Ascii.ascii_dec "/" c then String.prefix EmptyString p' else false)
      in Hslash.
    destruct (Ascii.ascii_dec "/" c) as [<- | ]; [clear Hslash | discriminate].
    change (String.prefix "/draft/" ("/draft" +:+ String "/" p')) with
      (String.prefix EmptyString p').
    replace (String.prefix EmptyString p') with true by now destruct p'.
    rewrite (bytes_from_app "/draft" (String "/" p')).
    cbn [negb].
    change (String.eqb ("/draft" +:+ String "/" p') "/feed.atom") with false.
    change (String.eqb ("/draft" +:+ String "/" p') EmptyString) with false.
    change (String.eqb ("/draft" +:+ String "/" p') "/") with false.
    change (String.eqb ("/draft" +:+ String "/" p') "/draft") with false.
    destruct (String.eqb_spec owner "?"); [contradiction|].
    cbn [orb andb]. rewrite Hown. cbn [negb andb].
    rewrite Hdot, Hmiss, Hload, Hdr, Hex. reflexivity.
  - intros user adm t. rewrite Hp. subst cache1. now rewrite Hcache.
Qed.
End ServerFacts.




Section TocFacts.
Variable config : Config.
Variable req_Host : string.
Variable load : string -> loadResult.
Variable Cache : Type.
Variable cache_Load : Cache -> string -> string -> option string.
Variable cache_Store : Cache -> string -> string -> string -> Cache.
Variable fs_ReadDir : string -> error + list proto.FileInfo.
Variable sort_Sort :
  (PostData -> PostData -> bool) -> list PostData -> list PostData.
Variable clock : nat -> time.Time.
Variable fs_Read : string -> error + (string * proto.FileInfo).
Variable path_Join : string -> string -> string.
Variable ctxt_User : string.
Variable json_UnmarshalCache : string -> gmap string PostData * option error.
Variable json_MarshalCache : gmap string PostData -> error + string.
Variable fs_Write : string -> string -> option error.
Variable toc_Execute : TocData -> error + string.
Local Abbreviation toc' :=
  (toc config req_Host load Cache cache_Load cache_Store fs_ReadDir sort_Sort
     clock fs_Read path_Join ctxt_User json_UnmarshalCache json_MarshalCache
     fs_Write toc_Execute).

(** Once [toc] has rendered and stored an index page, a later request with
    the same [readdir] value gets that page from the cache and nothing is run
    again: in published mode whoever asks, in draft mode when the same user
    asks, owner or not. *)
Theorem toc_answers_from_the_page_it_stored
  (cache cache1 : Cache) (fuel : nat) (readdir : string) (draft isOwner : bool)
  (user page : string) (out : tocOutcome) :
  (∀ c name path v, cache_Load (cache_Store c name path v) name path = Some v) ->
  toc' cache fuel readdir draft isOwner user (TocFresh out) cache1 ->
  toc_page out = Some page ->
  ∀ fuel' isOwner' user' reply cache2,
    draft = false ∨ user' = user ->
    toc' cache1 fuel' readdir draft isOwner' user' reply cache2 ->
    reply = TocCached page ∧ cache2 = cache1.
Proof.
  intros Hcache H1 Hpage fuel' isOwner' user' reply cache2 Hu H2.
  assert (Hkey : toc_key draft readdir user' = toc_key draft readdir user).
  { destruct Hu as [-> | ->]; reflexivity. }
  inversion H1 as [|out' Hmiss Hgen Hout Hc1]; subst.
  destruct out; try discriminate. injection Hpage as ->.
  simpl in H2.
  inversion H2 as [data Hhit | out' Hmiss' Hgen']; subst.
  - rewrite Hkey, Hcache in Hhit. injection Hhit as <-. auto.
  - rewrite Hkey, Hcache in Hmiss'. discriminate.
Qed.
End TocFacts.

Section FeedCacheFacts.
Variable Cache : Type.
Variable cache_Load : Cache -> string -> string -> option string.
Variable cache_Store : Cache -> string -> string -> string -> Cache.

End FeedCacheFacts.

Lemma demo_cache_contract :
  ∀ (c : demo_Cache) name path v,
    demo_cache_Load (demo_cache_Store c name path v) name path = Some v.
Proof. intros c name path v. apply lookup_insert_eq. Qed.

Lemma serve_hides_the_draft_area_demo :
  serve demo_config draft_load demo_Clean demo_Cache demo_cache_Load
    demo_cache_Store demo_main_Execute ∅ "/draft/plans" "?" true 100%Z
  = (DNotFound, ∅).
Proof.
  apply (serve_hides_the_draft_area_from_a_visitor_not_logged_in demo_config
           draft_load demo_Clean demo_Cache demo_cache_Load demo_cache_Store
           demo_main_Execute ∅ "/draft/plans" true 100%Z).
  - reflexivity.
  - right. reflexivity.
Defined.

Lemma serve_writes_a_page_demo :
  (true = true -> "petar" ≠ "?")
  ∧ ((demo_cache_Load ∅ "bloghtml:/plans" "blog" = Some "Plans: to do"
      ∧ demo_cache_Store ∅ "bloghtml:/plans" "blog" "Plans: to do" = ∅)
     ∨ (demo_cache_Load ∅ "bloghtml:/plans" "blog" = None
        ∧ ∃ meta article,
            draft_load "/plans" = LoadOk meta article
            ∧ IsDraft 100%Z meta = true
            ∧ (true = true ->
               false || String.eqb "petar" (cfg_Account demo_config) = true
               ∨ "petar" ∈ Reader meta)
            ∧ demo_main_Execute (set_Comments meta true) article
              = inr "Plans: to do"
            ∧ demo_cache_Store ∅ "bloghtml:/plans" "blog" "Plans: to do"
              = demo_cache_Store ∅ "bloghtml:/plans" "blog" "Plans: to do")).
Proof.
  exact (serve_writes_a_page_from_the_cache_or_after_the_visibility_test
           demo_config draft_load demo_Clean demo_Cache demo_cache_Load
           demo_cache_Store demo_main_Execute ∅
           (demo_cache_Store ∅ "bloghtml:/plans" "blog" "Plans: to do")
           "/draft/plans" "petar" "Plans: to do" false 100%Z eq_refl).
Defined.

Lemma serve_stores_the_owners_draft_page_demo :
  serve demo_config draft_load demo_Clean demo_Cache demo_cache_Load
    demo_cache_Store demo_main_Execute ∅ "/plans" "petar" false 100%Z
  = (DNotFound, ∅)
  ∧ serve demo_config draft_load demo_Clean demo_Cache demo_cache_Load
      demo_cache_Store demo_main_Execute ∅ "/draft/plans" "petar" false 100%Z
    = (DWrite "Plans: to do",
       demo_cache_Store ∅ "bloghtml:/plans" "blog" "Plans: to do")
  ∧ ∀ user isAdmin' now',
      serve demo_config draft_load demo_Clean demo_Cache demo_cache_Load
        demo_cache_Store demo_main_Execute
        (demo_cache_Store ∅ "bloghtml:/plans" "blog" "Plans: to do")
        "/plans" user isAdmin' now'
      = (DWrite "Plans: to do",
         demo_cache_Store ∅ "bloghtml:/plans" "blog" "Plans: to do").
Proof.
  apply (serve_stores_the_owners_draft_page_under_the_public_key demo_config
           draft_load demo_Clean demo_Cache demo_cache_Load demo_cache_Store
           demo_main_Execute ∅ "/plans" "petar" "Plans: to do" "to do"
           owners_draft false 100%Z demo_cache_contract);
    try reflexivity; discriminate.
Defined.

Lemma toc_demo_pass :
  toc demo_config "blog.example.org" demo_load demo_Cache demo_cache_Load
    demo_cache_Store demo_ReadDir stable_sort demo_clock snapshot_Read
    demo_Join "?" demo_UnmarshalCache demo_MarshalCache demo_Write
    demo_toc_Execute ∅ 1 EmptyString false false "?"
    (TocFresh
       (gentoc_tail demo_config "blog.example.org" "?" demo_MarshalCache
          demo_Write stable_sort demo_toc_Execute demo_clock false false "?"
          (ch demo_final) ([] ++ log demo_final)))
    (toc_store demo_Cache demo_cache_Store ∅ (toc_key false EmptyString "?")
       (gentoc_tail demo_config "blog.example.org" "?" demo_MarshalCache
          demo_Write stable_sort demo_toc_Execute demo_clock false false "?"
          (ch demo_final) ([] ++ log demo_final))).
Proof.
  apply toc_miss; [reflexivity|].
  apply (gentoc_done demo_config "blog.example.org" demo_load snapshot_Read
           demo_ReadDir demo_Join "?" demo_UnmarshalCache demo_MarshalCache
           demo_Write stable_sort demo_toc_Execute demo_clock 1 EmptyString
           false false "?" demo_dir demo_final).
  - exact demo_scan.
  - discriminate.
  - exact demo_run.
  - reflexivity.
  - reflexivity.
Qed.

Lemma toc_answers_from_the_page_it_stored_demo :
  demo_cache_Load ∅ (toc_key false EmptyString "?") "blog" = None
  ∧ ∀ fuel' isOwner' user' reply cache2,
    false = false ∨ user' = "?" ->
    toc demo_config "blog.example.org" demo_load demo_Cache demo_cache_Load
      demo_cache_Store demo_ReadDir stable_sort demo_clock snapshot_Read
      demo_Join "?" demo_UnmarshalCache demo_MarshalCache demo_Write
      demo_toc_Execute
      (demo_cache_Store ∅ "blog:toc:false" "blog" "Second;Old title;")
      fuel' EmptyString false isOwner' user' reply cache2 ->
    reply = TocCached "Second;Old title;"
    ∧ cache2 = demo_cache_Store ∅ "blog:toc:false" "blog" "Second;Old title;".
Proof.
  split; [reflexivity|].
  apply (toc_answers_from_the_page_it_stored demo_config "blog.example.org"
           demo_load demo_Cache demo_cache_Load demo_cache_Store demo_ReadDir
           stable_sort demo_clock snapshot_Read demo_Join "?"
           demo_UnmarshalCache demo_MarshalCache demo_Write demo_toc_Execute
           ∅ _ 1 EmptyString false false "?" "Second;Old title;" _
           demo_cache_contract toc_demo_pass).
  reflexivity.
Defined.


(** * One pass after another *)

Lemma NoDup_fmap_eq {A B} (f : A -> B) (l : list A) x y :
  NoDup (f <$> l) -> x ∈ l -> y ∈ l -> f x = f y -> x = y.
Proof.
  induction l as [|a l IH]; simpl; [inversion 2|].
  rewrite NoDup_cons, !elem_of_cons. intros [Ha Hnd] [->|Hx] [->|Hy] Hf.
  - reflexivity.
  - exfalso. apply Ha. rewrite Hf. apply list_elem_of_fmap. eauto.
  - exfalso. apply Ha. rewrite <- Hf. apply list_elem_of_fmap. eauto.
  - auto.
Qed.

Lemma NoDup_omap_names {A B} (f : A -> option B) (g : A -> string)
  (h : B -> string) (l : list A) :
  NoDup (g <$> l) ->
  (∀ x y, x ∈ l -> f x = Some y -> h y = g x) ->
  NoDup (h <$> omap f l).
Proof.
  induction l as [|a l IH]; simpl; [constructor|].
  rewrite NoDup_cons. intros [Ha Hnd] Hn.
  assert (IH' : NoDup (h <$> omap f l)).
  { apply IH; [exact Hnd|]. intros x y Hx. apply Hn. now right. }
  destruct (f a) as [b|] eqn:Hb; [|exact IH'].
  simpl. apply NoDup_cons. split; [|exact IH'].
  intros Hin. apply Ha.
  apply list_elem_of_fmap in Hin as (y & Hy & Hin).
  apply list_elem_of_omap in Hin as (x & Hx & Hfx).
  assert (Ha' : h b = g a) by (apply Hn; [now left | exact Hb]).
  assert (Hx' : h y = g x) by (apply Hn; [now right | exact Hfx]).
  rewrite <- Ha', Hy, Hx'. apply list_elem_of_fmap. eauto.
Qed.

Lemma filter_ext_elem {A} (P Q : A -> Prop) `{∀ x, Decision (P x)}
  `{∀ x, Decision (Q x)} (l : list A) :
  (∀ x, x ∈ l -> P x ↔ Q x) -> filter P l = filter Q l.
Proof.
  induction l as [|a l IH]; intros Hpq; [reflexivity|].
  assert (IH' : filter P l = filter Q l).
  { apply IH. intros x Hx. apply Hpq. now right. }
  destruct (decide (P a)) as [Hp|Hp].
  - rewrite !filter_cons_True; [now rewrite IH' | | exact Hp].
    apply Hpq; [now left | exact Hp].
  - rewrite !filter_cons_False; [exact IH' | | exact Hp].
    intros Hq. apply Hp. apply Hpq; [now left | exact Hq].
Qed.

Lemma omap_ext_elem {A B} (f g : A -> option B) (l : list A) :
  (∀ x, x ∈ l -> f x = g x) -> omap f l = omap g l.
Proof.
  induction l as [|a l IH]; intros H; [reflexivity|].
  assert (IH' : omap f l = omap g l).
  { apply IH. intros x Hx. apply H. now right. }
  change (omap f (a :: l))
    with (match f a with Some y => y :: omap f l | None => omap f l end).
  change (omap g (a :: l))
    with (match g a with Some y => y :: omap g l | None => omap g l end).
  rewrite (H a) by now left. now rewrite IH'.
Qed.

Section RoundTrip.
Variable load : string -> loadResult.
Variable postCache : gmap string PostData.
Variable dir : list proto.FileInfo.
Hypothesis names_unique : NoDup (proto.Name <$> dir).
Hypothesis cache_keyed : ∀ d m,
  d ∈ dir -> postCache !! proto.Name d = Some m -> Name m = proto.Name d.
Hypothesis load_stamps : ∀ d meta art,
  d ∈ dir -> load (proto.Name d) = LoadOk meta art ->
  Name meta = proto.Name d ∧ FileModTime meta = proto.ModTime d
  ∧ FileSize meta = proto.Size d.

Lemma resolve_stamped d m :
  d ∈ dir -> resolve load postCache d = Some m ->
  Name m = proto.Name d ∧ FileModTime m = proto.ModTime d
  ∧ FileSize m = proto.Size d.
Proof.
  intros Hd. unfold resolve.
  destruct (cacheLookup postCache d) as [m'|] eqn:Hc.
  - intros [= ->]. apply cacheLookup_Some in Hc as (Hl & Ht & Hz).
    split; [now apply cache_keyed | auto].
  - destruct (load (proto.Name d)) as [meta art| |] eqn:Hl; try discriminate.
    intros [= ->]. now apply (load_stamps d m art).
Qed.

Lemma snapshot_lookup (metas : list PostData) name m :
  metas ≡ₚ omap (resolve load postCache) dir ->
  (foldl (λ c meta, <[Name meta := meta]> c) (∅ : gmap string PostData) metas !! name = Some m
   ↔ ∃ d, d ∈ dir ∧ resolve load postCache d = Some m ∧ proto.Name d = name).
Proof.
  intros Hperm.
  assert (Hnd : NoDup (Name <$> metas)).
  { rewrite Hperm. apply (NoDup_omap_names _ proto.Name); [exact names_unique|].
    intros d y Hd Hy. now apply resolve_stamped. }
  rewrite (lookup_foldl_insert metas ∅ name m Hnd), lookup_empty. split.
  - intros [[Hm Hn]|[_ ?]]; [|discriminate].
    rewrite Hperm in Hm. apply list_elem_of_omap in Hm as (d & Hd & Hr).
    exists d. repeat split; auto.
    destruct (resolve_stamped d m Hd Hr) as [<- _]. exact Hn.
  - intros (d & Hd & Hr & <-). left. split.
    + rewrite Hperm. apply list_elem_of_omap. eauto.
    + now apply resolve_stamped.
Qed.

Lemma snapshot_cacheLookup (metas : list PostData) d :
  metas ≡ₚ omap (resolve load postCache) dir -> d ∈ dir ->
  cacheLookup (foldl (λ c meta, <[Name meta := meta]> c) (∅ : gmap string PostData) metas) d
  = resolve load postCache d.
Proof.
  intros Hperm Hd.
  destruct (resolve load postCache d) as [m|] eqn:Hr.
  - apply cacheLookup_Some.
    destruct (resolve_stamped d m Hd Hr) as (Hn & Ht & Hz).
    split; [|auto]. apply (snapshot_lookup _ _ _ Hperm). eauto.
  - destruct (cacheLookup _ d) as [m|] eqn:Hc; [|reflexivity].
    apply cacheLookup_Some in Hc as [Hl _].
    apply (snapshot_lookup _ _ _ Hperm) in Hl as (d' & Hd' & Hr' & Hn).
    assert (d' = d) by (apply (NoDup_fmap_eq proto.Name dir); auto).
    congruence.
Qed.

(** The snapshot one pass writes is valid for the next. Let the names of the
    listing be distinct, let the records of the loaded cache carry the name
    they are filed under, and let [loadPost] stamp a record with the name,
    modification time and size the listing has for the file. Then, for every
    item of the listing, the lookup in the rebuilt map gives the record the
    pass resolved the item to, and misses for an item that failed. So a second
    pass over the same listing that starts from this map, once closed, has
    called [loadPost] for the failed items only and has the same records. *)
Theorem second_pass_reuses_what_the_first_resolved
  (s : state) (draft isOwner : bool) (user : string) (clock : nat -> time.Time) :
  reachable load postCache dir s -> pc s = MClosed ->
  let written := (gentoc_collect draft isOwner user clock (ch s)).1 in
  (∀ d, d ∈ dir -> cacheLookup written d = resolve load postCache d)
  ∧ ∀ s2, reachable load written dir s2 -> pc s2 = MClosed ->
      loads s2
      ≡ₚ proto.Name <$> filter (λ d, resolve load postCache d = None) dir
      ∧ ch s2 ≡ₚ ch s.
Proof.
  intros Hs Hpc written.
  destruct (closed_facts load postCache dir s Hs Hpc)
    as (_ & _ & _ & _ & Hch & _ & _).
  assert (Hw : written = foldl (λ c meta, <[Name meta := meta]> c) ∅ (ch s)).
  { unfold written, gentoc_collect. apply gentoc_range_fst. }
  assert (Hlook : ∀ d, d ∈ dir ->
            cacheLookup written d = resolve load postCache d).
  { intros d Hd. rewrite Hw. now apply snapshot_cacheLookup. }
  split; [exact Hlook|]. intros s2 Hs2 Hpc2.
  destruct (closed_facts load written dir s2 Hs2 Hpc2)
    as (_ & _ & _ & _ & Hch2 & _ & Hloads2).
  split.
  - rewrite Hloads2. unfold staleItems.
    rewrite (filter_ext_elem (λ d, stale written d = true)
               (λ d, resolve load postCache d = None) dir); [reflexivity|].
    intros d Hd. unfold stale. rewrite (Hlook d Hd).
    destruct (resolve load postCache d); split; congruence.
  - rewrite Hch2, Hch.
    rewrite (omap_ext_elem (resolve load written) (resolve load postCache) dir);
      [reflexivity|].
    intros d Hd. unfold resolve at 1. rewrite (Hlook d Hd).
    unfold resolve. destruct (cacheLookup postCache d); [reflexivity|].
    destruct (load (proto.Name d)); reflexivity.
Qed.
End RoundTrip.

Lemma second_pass_demo :
  (∀ d, d ∈ demo_dir ->
     cacheLookup
       (gentoc_collect false false "?" demo_clock (ch demo_final)).1 d
     = resolve demo_load demo_cache d)
  ∧ ∀ s2,
      reachable demo_load
        (gentoc_collect false false "?" demo_clock (ch demo_final)).1
        demo_dir s2 ->
      pc s2 = MClosed ->
      loads s2
      ≡ₚ proto.Name <$> filter (λ d, resolve demo_load demo_cache d = None)
                          demo_dir
      ∧ ch s2 ≡ₚ ch demo_final.
Proof.
  apply (second_pass_reuses_what_the_first_resolved demo_load demo_cache
           demo_dir).
  - apply (bool_decide_unpack _). vm_compute. reflexivity.
  - intros d m Hd. unfold demo_dir in Hd.
    repeat (apply elem_of_cons in Hd as [->|Hd];
            [vm_compute; intros [= <-]; reflexivity|]).
    inversion Hd.
  - intros d meta art Hd. unfold demo_dir in Hd.
    repeat (apply elem_of_cons in Hd as [->|Hd];
            [vm_compute; intros [= <- _]; repeat split|]).
    inversion Hd.
  - exact demo_run.
  - reflexivity.
Defined.

(** * The parser on a file with a metadata block *)

Lemma substring_0_add (n k : nat) : ∀ s,
  String.substring 0 (n + k) s
  = String.substring 0 n s +:+ String.substring n k s.
Proof.
  induction n as [|n IH]; intros s.
  - simpl. now destruct s.
  - destruct s as [|c s]; simpl; [reflexivity|]. rewrite IH. reflexivity.
Qed.

Lemma substring_0_bytes_from (n : nat) : ∀ s,
  String.substring 0 n s +:+ bytes_from n s = s.
Proof.
  unfold bytes_from. induction n as [|n IH]; intros s.
  - rewrite Nat.sub_0_r, substring_0_length. now destruct s.
  - destruct s as [|c s]; simpl; [reflexivity|].
    transitivity (String c (String.substring 0 n s
                            +:+ String.substring n (String.length s - n) s));
      [reflexivity | now rewrite IH].
Qed.

Lemma length_substring_0 (n : nat) : ∀ s,
  String.length (String.substring 0 n s) ≤ n.
Proof.
  induction n as [|n IH]; intros s.
  - now destruct s.
  - destruct s as [|c s]; simpl; [lia|]. specialize (IH s). lia.
Qed.

Section HeaderFacts.
Variable config : Config.
Variable req_Host : string.
Variable fs_Read : string -> error + (string * proto.FileInfo).
Variable json_Unmarshal :
  Unmarshaler blogTime -> string -> PostData -> error + PostData.
Variable time_Parse : string -> string -> option time.Time.
Variable strings_Replace : list (string * string) -> string -> string.

(** A content file that begins with a metadata block and parses: the header
    handed to the decoder is the file up to and including the first line that
    holds only a closing brace, the body handed to the replacer is all that
    follows, and the two make up the file. The record is the decoded one with
    the modification time and size of the file read: the header cannot set
    them. *)
Theorem loadPost_takes_the_header_up_to_the_first_closing_line
  (name art body : string) (fi : proto.FileInfo) (meta : PostData) :
  fs_Read name = inr (art, fi) ->
  String.prefix ("{" +:+ nl) art = true ->
  loadPost config req_Host fs_Read json_Unmarshal time_Parse strings_Replace name
  = LoadOk meta body ->
  ∃ h0 rest decoded,
    art = (h0 +:+ nl +:+ "}" +:+ nl) +:+ rest
    ∧ (∀ k, k < String.length h0 ->
         String.substring k 3 art ≠ nl +:+ "}" +:+ nl)
    ∧ json_Unmarshal (blogTime_UnmarshalJSON time_Parse)
        (h0 +:+ nl +:+ "}" +:+ nl) (loadPost_literal config req_Host name)
      = inr decoded
    ∧ meta = set_FileStat decoded fi
    ∧ body = strings_Replace replacer rest
    ∧ FileModTime meta = proto.ModTime fi
    ∧ FileSize meta = proto.Size fi.
Proof.
  intros Hr Hp. unfold loadPost. rewrite Hr, Hp.
  destruct (String.index 0 (nl +:+ "}" +:+ nl) art) as [i|] eqn:Hi;
    [|discriminate].
  pose proof (String.index_correct1 _ _ _ _ Hi) as Hat.
  pose proof (String.index_correct2 _ _ _ _ Hi) as Hbefore.
  change (String.length (nl +:+ "}" +:+ nl)) with 3 in Hat, Hbefore.
  assert (Hhdr : String.substring 0 (i + 3) art
                 = String.substring 0 i art +:+ nl +:+ "}" +:+ nl).
  { now rewrite substring_0_add, Hat. }
  rewrite Hhdr.
  destruct (json_Unmarshal _ _ _) as [err|decoded] eqn:Hj; [discriminate|].
  intros [= <- <-].
  exists (String.substring 0 i art), (bytes_from (i + 3) art), decoded.
  split; [|split; [|now repeat split]].
  - rewrite <- Hhdr. symmetry. apply substring_0_bytes_from.
  - intros k Hk. apply Hbefore; [lia|].
    pose proof (length_substring_0 i art). lia.
Qed.
End HeaderFacts.

Lemma loadPost_header_demo :
  ∃ h0 rest decoded,
    "{" +:+ nl +:+ "}" +:+ nl +:+ "text" = (h0 +:+ nl +:+ "}" +:+ nl) +:+ rest
    ∧ (∀ k, k < String.length h0 ->
         String.substring k 3 ("{" +:+ nl +:+ "}" +:+ nl +:+ "text")
         ≠ nl +:+ "}" +:+ nl)
    ∧ json_keep (blogTime_UnmarshalJSON parse_unused)
        (h0 +:+ nl +:+ "}" +:+ nl)
        (loadPost_literal demo_config "blog.example.org" "p")
      = inr decoded
    ∧ set_FileStat (loadPost_literal demo_config "blog.example.org" "p")
        (demo_file "p" 5 3)
      = set_FileStat decoded (demo_file "p" 5 3)
    ∧ "text" = replace_plain replacer rest
    ∧ FileModTime
        (set_FileStat (loadPost_literal demo_config "blog.example.org" "p")
           (demo_file "p" 5 3)) = proto.ModTime (demo_file "p" 5 3)
    ∧ FileSize
        (set_FileStat (loadPost_literal demo_config "blog.example.org" "p")
           (demo_file "p" 5 3)) = proto.Size (demo_file "p" 5 3).
Proof.
  exact (loadPost_takes_the_header_up_to_the_first_closing_line demo_config
           "blog.example.org" headed_Read json_keep parse_unused replace_plain
           "p" ("{" +:+ nl +:+ "}" +:+ nl +:+ "text") "text" (demo_file "p" 5 3)
           (set_FileStat (loadPost_literal demo_config "blog.example.org" "p")
              (demo_file "p" 5 3))
           eq_refl eq_refl eq_refl).
Defined.

(** * The feed *)

Lemma lookup_StronglySorted {A} (R : relation A) (l : list A) :
  (∀ i j x y, i < j -> l !! i = Some x -> l !! j = Some y -> R x y) ->
  StronglySorted R l.
Proof.
  induction l as [|a l IH]; intros H; constructor.
  - apply IH. intros i j x y Hij Hi Hj. apply (H (S i) (S j)); auto. lia.
  - apply Forall_forall. intros y Hy.
    apply list_elem_of_lookup in Hy as [j Hj].
    apply (H 0 (S j)); auto. lia.
Qed.

Lemma StronglySorted_filter {A} (R : relation A) (P : A -> Prop)
  `{∀ x, Decision (P x)} (l : list A) :
  StronglySorted R l -> StronglySorted R (filter P l).
Proof.
  induction 1 as [|a l Hs IH Hall]; [constructor|].
  destruct (decide (P a)) as [Hp|Hp].
  - rewrite filter_cons_True by exact Hp. constructor; [exact IH|].
    rewrite Forall_forall in *. intros y Hy. apply Hall.
    now apply list_elem_of_filter in Hy as [_ Hy].
  - rewrite filter_cons_False by exact Hp. exact IH.
Qed.

(** The selection of the feed keeps the order of the sorted records. *)
Lemma atomfeed_show_sorted (R : relation PostData) (all : list PostData) :
  StronglySorted R all -> StronglySorted R (atomfeed_show all).
Proof.
  intros Hs. rewrite atomfeed_show_spec.
  rewrite <- (take_drop 10 all) in Hs.
  apply StronglySorted_app in Hs as (Hcross & Ht & Hd).
  apply StronglySorted_app. split; [|split].
  - intros x y Hx Hy. apply Hcross; [exact Hx|].
    now apply list_elem_of_filter in Hy as [_ Hy].
  - exact Ht.
  - now apply StronglySorted_filter.
Qed.

Lemma atomfeed_show_elem (all : list PostData) m :
  m ∈ atomfeed_show all -> m ∈ all.
Proof.
  rewrite atomfeed_show_spec, elem_of_app, list_elem_of_filter.
  rewrite <- (take_drop 10 all) at 3. rewrite elem_of_app. tauto.
Qed.

Lemma atomfeed_show_favorite (all : list PostData) m :
  m ∈ all -> Favorite m = true -> m ∈ atomfeed_show all.
Proof.
  rewrite atomfeed_show_spec, elem_of_app, list_elem_of_filter.
  rewrite <- (take_drop 10 all) at 1. rewrite elem_of_app.
  intros [H|H] Hf; [left | right]; auto.
Qed.

Lemma atomfeed_show_head (all : list PostData) first rest :
  atomfeed_show all = first :: rest -> all !! 0 = Some first.
Proof.
  rewrite atomfeed_show_spec. destruct all as [|a all]; [discriminate|].
  simpl. now intros [= -> _].
Qed.

(** A feed pass that succeeds, with [sort.Sort] keeping its promise. The
    feed's update time is the publish time of the newest published record of
    the listing; every favorite among the published records has an entry,
    however old; every entry is of a published record; and the entries are in
    descending publish time, the favorites appended after the tenth
    included. *)
Theorem feed_is_dated_by_its_newest_post_and_keeps_every_favorite
  (config : Config) (req_Host : string) (load : string -> loadResult)
  (fs_ReadDir : string -> error + list proto.FileInfo)
  (sort_Sort : (PostData -> PostData -> bool) -> list PostData -> list PostData)
  (atom_Execute : PostData -> error + string)
  (xml_Marshal : atom_Feed -> error + string) (clock : nat -> time.Time)
  (f : atom_Feed) (data : string) :
  sorts_byTime sort_Sort ->
  atomfeed config req_Host load fs_ReadDir sort_Sort atom_Execute xml_Marshal
    clock = inr (f, data) ->
  ∃ dir,
    fs_ReadDir "blog/post" = inr dir
    ∧ let records := omap (published load clock) (indexed 0 dir) in
      (∀ m, m ∈ records -> (Time_of (Date m) ≤ feed_Updated f)%Z)
      ∧ (∃ m, m ∈ records ∧ feed_Updated f = Time_of (Date m))
      ∧ (∀ m, m ∈ records -> Favorite m = true ->
           ∃ body, atom_Execute m = inr body
                   ∧ atomfeed_entry (FeedID config) m body ∈ feed_Entry f)
      ∧ (∀ e, e ∈ feed_Entry f ->
           ∃ m body, m ∈ records ∧ atom_Execute m = inr body
                     ∧ e = atomfeed_entry (FeedID config) m body)
      ∧ (∀ i j e1 e2, i < j ->
           feed_Entry f !! i = Some e1 -> feed_Entry f !! j = Some e2 ->
           (entry_Updated e2 ≤ entry_Updated e1)%Z).
Proof.
  intros Hsort Hfeed.
  pose proof (atomfeed_inr _ _ _ _ _ _ _ _ _ _ Hfeed)
    as (dir & records & Hdir & Hrange & Hentries).
  pose proof (atomfeed_cases config req_Host load fs_ReadDir sort_Sort
                atom_Execute xml_Marshal clock dir Hdir) as Hcases.
  rewrite Hrange in Hcases.
  apply atomfeed_range_inr in Hrange as [_ Hrec]. simpl in Hrec. subst records.
  set (records := omap (published load clock) (indexed 0 dir)) in *.
  destruct (Hsort records) as [Hperm Hsorted].
  set (all := sort_Sort byTime_Less records) in *.
  exists dir. split; [exact Hdir|]. simpl.
  assert (Hss : StronglySorted (λ x y, byTime_Less y x = false) (atomfeed_show all)).
  { apply atomfeed_show_sorted, lookup_StronglySorted. exact Hsorted. }
  destruct (atomfeed_show all) as [|first rest] eqn:Hshow;
    [rewrite Hfeed in Hcases; discriminate|].
  assert (Hupd : feed_Updated f = Time_of (Date first)).
  { destruct Hcases as [[err He]|(f' & data' & He & Hu & _)];
      rewrite Hfeed in He; [discriminate|]. now injection He as <- <-. }
  pose proof (atomfeed_show_head all first rest Hshow) as Hhead.
  assert (Hall : ∀ m, m ∈ records ↔ m ∈ all) by (intros m; now rewrite Hperm).
  split; [|split; [|split; [|split]]].
  - intros m Hm. rewrite Hupd. apply Hall in Hm.
    apply list_elem_of_lookup in Hm as [j Hj].
    destruct j as [|j]; [rewrite Hhead in Hj; injection Hj as ->; lia|].
    apply byTime_Less_false. apply (Hsorted 0 (S j)); auto. lia.
  - exists first. split; [|exact Hupd].
    apply Hall. apply list_elem_of_lookup. eauto.
  - intros m Hm Hfav.
    assert (Hin : m ∈ first :: rest).
    { rewrite <- Hshow. apply atomfeed_show_favorite; [|exact Hfav].
      now apply Hall. }
    apply list_elem_of_lookup in Hin as [i Hi].
    destruct (Forall2_lookup_l _ _ _ _ _ Hentries Hi) as (e & He & body & Hb & ->).
    exists body. split; [exact Hb|]. apply list_elem_of_lookup. eauto.
  - intros e He. apply list_elem_of_lookup in He as [i Hi].
    destruct (Forall2_lookup_r _ _ _ _ _ Hentries Hi) as (m & Hm & body & Hb & ->).
    exists m, body. split; [|auto].
    apply Hall. apply atomfeed_show_elem. rewrite Hshow.
    apply list_elem_of_lookup. eauto.
  - intros i j e1 e2 Hij H1 H2.
    destruct (Forall2_lookup_r _ _ _ _ _ Hentries H1) as (m1 & Hm1 & b1 & _ & ->).
    destruct (Forall2_lookup_r _ _ _ _ _ Hentries H2) as (m2 & Hm2 & b2 & _ & ->).
    simpl. apply byTime_Less_false.
    exact (StronglySorted_lookup _ _ Hss i j m1 m2 Hij Hm1 Hm2).
Qed.

Lemma feed_demo :
  ∃ dir,
    demo_ReadDir "blog/post" = inr dir
    ∧ let records := omap (published published_load demo_clock) (indexed 0 dir) in
      (∀ m, m ∈ records -> (Time_of (Date m) ≤ feed_Updated published_feed)%Z)
      ∧ (∃ m, m ∈ records ∧ feed_Updated published_feed = Time_of (Date m))
      ∧ (∀ m, m ∈ records -> Favorite m = true ->
           ∃ body, demo_Execute m = inr body
                   ∧ atomfeed_entry (FeedID demo_config) m body
                     ∈ feed_Entry published_feed)
      ∧ (∀ e, e ∈ feed_Entry published_feed ->
           ∃ m body, m ∈ records ∧ demo_Execute m = inr body
                     ∧ e = atomfeed_entry (FeedID demo_config) m body)
      ∧ (∀ i j e1 e2, i < j ->
           feed_Entry published_feed !! i = Some e1 ->
           feed_Entry published_feed !! j = Some e2 ->
           (entry_Updated e2 ≤ entry_Updated e1)%Z).
Proof.
  exact (feed_is_dated_by_its_newest_post_and_keeps_every_favorite demo_config
           "blog.example.org" published_load demo_ReadDir stable_sort
           demo_Execute demo_Marshal demo_clock published_feed "A blog"
           stable_sort_sorts eq_refl).
Defined.

(** * The order of the records and the draft state *)

Lemma insert_Permutation {A} (l : list A) : ∀ i y,
  i < length l -> <[i:=y]> l ≡ₚ y :: delete i l.
Proof.
  induction l as [|a l IH]; intros [|i] y Hi; simpl in *; try lia.
  - reflexivity.
  - rewrite (IH i y) by lia. apply Permutation_swap.
Qed.

Lemma swap_Permutation {A} (x : list A) i j xi xj :
  x !! i = Some xi -> x !! j = Some xj ->
  <[j:=xi]> (<[i:=xj]> x) ≡ₚ x.
Proof.
  intros Hi Hj.
  pose proof (lookup_lt_Some _ _ _ Hi) as Hli.
  pose proof (lookup_lt_Some _ _ _ Hj) as Hlj.
  destruct (decide (i = j)) as [->|Hne].
  - assert (xi = xj) by congruence. subst xj.
    rewrite (list_insert_id x j xi Hi). now rewrite (list_insert_id x j xi Hi).
  - set (l1 := <[i:=xj]> x).
    assert (H1 : l1 !! j = Some xj).
    { unfold l1. now rewrite list_lookup_insert_ne. }
    assert (Hl1 : l1 ≡ₚ xj :: delete i x) by (apply insert_Permutation; lia).
    pose proof (delete_Permutation l1 j xj H1) as Hl1'.
    assert (Hd : delete j l1 ≡ₚ delete i x).
    { apply (Permutation_cons_inv (a := xj)). now rewrite <- Hl1', <- Hl1. }
    rewrite insert_Permutation by (unfold l1; rewrite length_insert; lia).
    rewrite Hd. symmetry. now apply delete_Permutation.
Qed.

(** [byTime] is what [sort.Sort] asks for. [Less] is a strict weak order:
    no record is before itself, before is transitive, and so is
    not-before, which makes records of equal time interchangeable. [Swap]
    with both indexes in range exchanges the two records, moves no other and
    keeps the records the slice holds; with an index out of range it
    panics. *)
Theorem byTime_is_a_strict_weak_order_and_Swap_exchanges_two_records :
  (∀ x, byTime_Less x x = false)
  ∧ (∀ x y z, byTime_Less x y = true -> byTime_Less y z = true ->
       byTime_Less x z = true)
  ∧ (∀ x y z, byTime_Less x y = false -> byTime_Less y z = false ->
       byTime_Less x z = false)
  ∧ (∀ x i j,
       match byTime_Swap x i j with
       | inr y =>
           i < byTime_Len x ∧ j < byTime_Len x
           ∧ byTime_Len y = byTime_Len x
           ∧ y !! i = x !! j ∧ y !! j = x !! i
           ∧ (∀ k, k ≠ i -> k ≠ j -> y !! k = x !! k)
           ∧ y ≡ₚ x
       | inl _ => ¬ (i < byTime_Len x ∧ j < byTime_Len x)
       end).
Proof.
  unfold byTime_Less, time.After. repeat split.
  - intros x. apply Z.ltb_irrefl.
  - intros x y z. rewrite !Z.ltb_lt. lia.
  - intros x y z. rewrite !Z.ltb_ge. lia.
  - intros x i j. unfold byTime_Swap, byTime_Len.
    destruct (x !! i) as [xi|] eqn:Hi.
    + destruct (x !! j) as [xj|] eqn:Hj.
      * pose proof (lookup_lt_Some _ _ _ Hi) as Hli.
        pose proof (lookup_lt_Some _ _ _ Hj) as Hlj.
        split; [exact Hli|]. split; [exact Hlj|].
        split; [now rewrite !length_insert|].
        split; [|split; [|split]].
        -- destruct (decide (i = j)) as [->|Hne].
           ++ rewrite list_lookup_insert_eq by (rewrite length_insert; lia).
              congruence.
           ++ rewrite list_lookup_insert_ne by auto.
              now rewrite list_lookup_insert_eq.
        -- now rewrite list_lookup_insert_eq by (rewrite length_insert; lia).
        -- intros k Hki Hkj. now rewrite !list_lookup_insert_ne by auto.
        -- now apply swap_Permutation.
      * apply lookup_ge_None in Hj. lia.
    + apply lookup_ge_None in Hi. lia.
Qed.

(** A record with a date is a draft exactly until the clock reaches that
    date, so once a post is published it stays published as time goes on; a
    record without a date is a draft at every moment. *)
Theorem a_post_is_a_draft_until_its_date_and_never_again
  (now now' : time.Time) (d : PostData) :
  (now ≤ now')%Z ->
  (IsDraft now d = false -> IsDraft now' d = false)
  ∧ (Time_of (Date d) = time.zero -> IsDraft now d = true)
  ∧ (Time_of (Date d) ≠ time.zero ->
     (IsDraft now d = true ↔ (now < Time_of (Date d))%Z)).
Proof.
  intros Hle. unfold IsDraft, time.IsZero, time.After, time.zero.
  split; [|split].
  - rewrite !orb_false_iff, !Z.eqb_neq, !Z.ltb_ge. lia.
  - intros ->. reflexivity.
  - intros Hnz. rewrite orb_true_iff, Z.eqb_eq, Z.ltb_lt. tauto.
Qed.

Lemma a_post_is_a_draft_demo :
  (IsDraft 40%Z (demo_post "a" "Post" 50 5 3 false) = false ->
   IsDraft 50%Z (demo_post "a" "Post" 50 5 3 false) = false)
  ∧ (Time_of (Date (demo_post "a" "Post" 50 5 3 false)) = time.zero ->
     IsDraft 40%Z (demo_post "a" "Post" 50 5 3 false) = true)
  ∧ (Time_of (Date (demo_post "a" "Post" 50 5 3 false)) ≠ time.zero ->
     (IsDraft 40%Z (demo_post "a" "Post" 50 5 3 false) = true
      ↔ (40 < Time_of (Date (demo_post "a" "Post" 50 5 3 false)))%Z)).
Proof.
  apply (a_post_is_a_draft_until_its_date_and_never_again 40%Z 50%Z). lia.
Defined.

(** * The index page *)

Section PageFacts.
Variable config : Config.
Variable req_Host : string.
Variable load : string -> loadResult.
Variable fs_Read : string -> error + (string * proto.FileInfo).
Variable fs_ReadDir : string -> error + list proto.FileInfo.
Variable path_Join : string -> string -> string.
Variable ctxt_User : string.
Variable json_UnmarshalCache : string -> gmap string PostData * option error.
Variable json_MarshalCache : gmap string PostData -> error + string.
Variable fs_Write : string -> string -> option error.
Variable sort_Sort :
  (PostData -> PostData -> bool) -> list PostData -> list PostData.
Variable toc_Execute : TocData -> error + string.
Variable clock : nat -> time.Time.

(** An index page that was rendered, with [sort.Sort] keeping its promise:
    the request did not ask for the count of the listing, every post on the
    page and every record of the new map was resolved from an item that the
    walk of this request has listed (a record of the old snapshot whose file
    is gone is neither shown nor kept), the new map files each record under
    its name, and the page is what the template gives for these posts. *)
Theorem index_page_shows_only_records_of_the_current_listing
  (fuel : nat) (readdir : string) (draft isOwner : bool) (user : string)
  (written : gmap string PostData) (persisted : option string)
  (posts : list PostData) (page : string) (lns : list string) :
  sorts_byTime sort_Sort ->
  gentoc config req_Host load fs_Read fs_ReadDir path_Join ctxt_User
    json_UnmarshalCache json_MarshalCache fs_Write sort_Sort toc_Execute clock
    fuel readdir draft isOwner user
    (TocPage written persisted posts page lns) ->
  ∃ dir,
    readDirEllipses fs_ReadDir path_Join fuel "blog/post" = Some (inr dir)
    ∧ readdir ≠ "1"
    ∧ (∀ m, m ∈ posts ->
         ∃ d, d ∈ dir
              ∧ resolve load (loadCache fs_Read json_UnmarshalCache).1 d = Some m)
    ∧ (∀ k m, written !! k = Some m ->
         Name m = k
         ∧ ∃ d, d ∈ dir
                ∧ resolve load (loadCache fs_Read json_UnmarshalCache).1 d
                  = Some m)
    ∧ toc_Execute (mkTocData ctxt_User draft (hostURL config req_Host)
                     "/draft" "/" posts) = inr page.
Proof.
  intros Hsort H.
  inversion H as [| | |dir s Hscan Hrd Hs Hpc Hc Htail]; subst.
  unfold gentoc_tail in Htail.
  destruct (gentoc_collect draft isOwner user clock (ch s)) as [pc0 all] eqn:Hcol.
  destruct (saveCache _ _ _) as [pers lns'].
  destruct (toc_Execute _) as [err|pg] eqn:Hx; [discriminate|].
  injection Htail as <- <- <- <- <-.
  destruct (closed_facts load _ dir s Hs Hpc) as (_ & _ & _ & _ & Hch & _ & _).
  assert (Hin : ∀ m, m ∈ ch s ->
            ∃ d, d ∈ dir
                 ∧ resolve load (loadCache fs_Read json_UnmarshalCache).1 d
                   = Some m).
  { intros m Hm. rewrite Hch in Hm.
    apply list_elem_of_omap in Hm as (d & Hd & Hr). eauto. }
  exists dir. split; [exact Hscan|]. split; [exact Hrd|].
  split; [|split; [|exact Hx]].
  - intros m Hm. apply Hin. clear H.
    destruct (Hsort all) as [Hperm _]. rewrite Hperm in Hm.
    assert (Hall : all = (gentoc_collect draft isOwner user clock (ch s)).2)
      by now rewrite Hcol.
    unfold gentoc_collect in Hall. rewrite gentoc_range_snd in Hall.
    simpl in Hall. subst all.
    apply list_elem_of_fmap in Hm as ([j m'] & -> & Hm).
    apply list_elem_of_filter in Hm as [_ Hm].
    apply indexed_elem in Hm as (j' & _ & Hj).
    simpl. apply list_elem_of_lookup. eauto.
  - intros k m Hk.
    assert (Hw : pc0 = (gentoc_collect draft isOwner user clock (ch s)).1)
      by now rewrite Hcol.
    unfold gentoc_collect in Hw. rewrite gentoc_range_fst in Hw. subst pc0.
    apply lookup_foldl_insert_Some in Hk as [[Hm Hn]|Hk];
      [|rewrite lookup_empty in Hk; discriminate].
    split; [exact Hn | now apply Hin].
Qed.
End PageFacts.

Lemma gentoc_demo_pass :
  gentoc demo_config "blog.example.org" demo_load snapshot_Read demo_ReadDir
    demo_Join "?" demo_UnmarshalCache demo_MarshalCache demo_Write stable_sort
    demo_toc_Execute demo_clock 1 EmptyString false false "?"
    (TocPage (gentoc_collect false false "?" demo_clock (ch demo_final)).1
       (Some "snapshot") [freshB; cachedA] "Second;Old title;"
       ["loadPost blog/post/c: read error"]).
Proof.
  exact (gentoc_done demo_config "blog.example.org" demo_load snapshot_Read
           demo_ReadDir demo_Join "?" demo_UnmarshalCache demo_MarshalCache
           demo_Write stable_sort demo_toc_Execute demo_clock 1 EmptyString
           false false "?" demo_dir demo_final demo_scan
           ltac:(discriminate) demo_run eq_refl eq_refl).
Qed.

Lemma index_page_demo :
  ∃ dir,
    readDirEllipses demo_ReadDir demo_Join 1 "blog/post" = Some (inr dir)
    ∧ EmptyString ≠ "1"
    ∧ (∀ m, m ∈ [freshB; cachedA] ->
         ∃ d, d ∈ dir
              ∧ resolve demo_load
                  (loadCache snapshot_Read demo_UnmarshalCache).1 d = Some m)
    ∧ (∀ k m,
         (gentoc_collect false false "?" demo_clock (ch demo_final)).1 !! k
         = Some m ->
         Name m = k
         ∧ ∃ d, d ∈ dir
                ∧ resolve demo_load
                    (loadCache snapshot_Read demo_UnmarshalCache).1 d = Some m)
    ∧ demo_toc_Execute
        (mkTocData "?" false (hostURL demo_config "blog.example.org")
           "/draft" "/" [freshB; cachedA])
      = inr "Second;Old title;".
Proof.
  exact (index_page_shows_only_records_of_the_current_listing demo_config
           "blog.example.org" demo_load snapshot_Read demo_ReadDir demo_Join
           "?" demo_UnmarshalCache demo_MarshalCache demo_Write stable_sort
           demo_toc_Execute demo_clock 1 EmptyString false false "?" _
           (Some "snapshot") [freshB; cachedA] "Second;Old title;"
           ["loadPost blog/post/c: read error"] stable_sort_sorts
           gentoc_demo_pass).
Defined.

(** * The buffers of the refresh phase, and the count of the listing *)

Section BufferFacts.
Variable load : string -> loadResult.
Variable postCache : gmap string PostData.
Variable dir : list proto.FileInfo.

(** Both channels are large enough. In every state a run of the refresh
    phase can reach, the records on [ch], the sends still to come and the
    items not yet dispatched fit the buffer of [ch], which has one place per
    listed item, and no more than [par] goroutines hold a permit. So, as long
    as the process has not crashed, a goroutine at its send and the dispatch
    loop at a cache hit can send at once, and a goroutine that returns can
    give its permit back at once: neither ever waits for room. *)
Theorem no_send_waits_for_room_in_a_channel (s : state) :
  reachable load postCache dir s ->
  length (ch s) + sum_list_with sends (gs s) + length (unvisited (pc s))
  ≤ length dir
  ∧ sum_list_with permit (gs s) ≤ par
  ∧ (crashed s = None ->
     (∀ meta g1 g2, gs s = g1 ++ GSend meta :: g2 ->
        ∃ t, step load postCache dir s t ∧ ch t = ch s ++ [meta])
     ∧ (∀ d rest meta, pc s = MRange (d :: rest) ->
          cacheLookup postCache d = Some meta ->
          ∃ t, step load postCache dir s t ∧ ch t = ch s ++ [meta])
     ∧ (∀ g1 g2, gs s = g1 ++ GDefer :: g2 ->
          ∃ t, step load postCache dir s t ∧ limit t = S (limit s))).
Proof.
  intros Hs.
  pose proof (ch_room load postCache dir s Hs) as Hroom.
  pose proof (permits_conserved load postCache dir s Hs) as Hp.
  split; [exact Hroom|]. split; [lia|].
  destruct s as [p lim c g cr lg ld a r]; simpl in *. intros ->.
  split; [|split].
  - intros meta g1 g2 ->. rewrite sum_list_with_app in Hroom. simpl in Hroom.
    eexists. split; [apply step_send; lia | reflexivity].
  - intros d rest meta -> Hc. simpl in Hroom.
    eexists. split; [apply (step_hit _ _ _ _ _ meta); [exact Hc | lia] | reflexivity].
  - intros g1 g2 ->. rewrite sum_list_with_app in Hp. simpl in Hp.
    eexists. split; [apply step_defer; lia | reflexivity].
Qed.
End BufferFacts.

Lemma no_send_waits_demo :
  length (ch demo_final) + sum_list_with sends (gs demo_final)
  + length (unvisited (pc demo_final)) ≤ length demo_dir
  ∧ sum_list_with permit (gs demo_final) ≤ par
  ∧ (crashed demo_final = None ->
     (∀ meta g1 g2, gs demo_final = g1 ++ GSend meta :: g2 ->
        ∃ t, step demo_load demo_cache demo_dir demo_final t
             ∧ ch t = ch demo_final ++ [meta])
     ∧ (∀ d rest meta, pc demo_final = MRange (d :: rest) ->
          cacheLookup demo_cache d = Some meta ->
          ∃ t, step demo_load demo_cache demo_dir demo_final t
               ∧ ch t = ch demo_final ++ [meta])
     ∧ (∀ g1 g2, gs demo_final = g1 ++ GDefer :: g2 ->
          ∃ t, step demo_load demo_cache demo_dir demo_final t
               ∧ limit t = S (limit demo_final))).
Proof.
  exact (no_send_waits_for_room_in_a_channel demo_load demo_cache demo_dir
           demo_final demo_run).
Defined.

Section ReaddirFacts.
Variable config : Config.
Variable req_Host : string.
Variable load : string -> loadResult.
Variable Cache : Type.
Variable cache_Load : Cache -> string -> string -> option string.
Variable cache_Store : Cache -> string -> string -> string -> Cache.
Variable fs_ReadDir : string -> error + list proto.FileInfo.
Variable sort_Sort :
  (PostData -> PostData -> bool) -> list PostData -> list PostData.
Variable clock : nat -> time.Time.
Variable fs_Read : string -> error + (string * proto.FileInfo).
Variable path_Join : string -> string -> string.
Variable ctxt_User : string.
Variable json_UnmarshalCache : string -> gmap string PostData * option error.
Variable json_MarshalCache : gmap string PostData -> error + string.
Variable fs_Write : string -> string -> option error.
Variable toc_Execute : TocData -> error + string.

(** A request with [readdir=1] changes nothing in the output cache. On a
    miss it answers with the number of files the walk has listed, or panics
    with the error of the walk; it does not come to the snapshot, to a parse
    or to the template, and its answer is not stored. *)
Theorem a_readdir_request_counts_the_listing_and_stores_nothing
  (cache cache' : Cache) (fuel : nat) (draft isOwner : bool) (user : string)
  (reply : tocReply) :
  toc config req_Host load Cache cache_Load cache_Store fs_ReadDir sort_Sort
    clock fs_Read path_Join ctxt_User json_UnmarshalCache json_MarshalCache
    fs_Write toc_Execute cache fuel "1" draft isOwner user reply cache' ->
  cache' = cache
  ∧ ((∃ data, cache_Load cache (toc_key draft "1" user) "blog" = Some data
              ∧ reply = TocCached data)
     ∨ (cache_Load cache (toc_key draft "1" user) "blog" = None
        ∧ ((∃ dir, readDirEllipses fs_ReadDir path_Join fuel "blog/post"
                   = Some (inr dir)
                   ∧ reply = TocFresh (TocReaddir (length dir)))
           ∨ (∃ err, readDirEllipses fs_ReadDir path_Join fuel "blog/post"
                     = Some (inl err)
                     ∧ reply = TocFresh (TocPanic err))))).
Proof.
  intros H. inversion H as [data Hhit | out Hmiss Hgen]; subst.
  - split; [reflexivity|]. left. eauto.
  - inversion Hgen as [err Hscan | dir Hscan _ | dir s msg _ Hne | dir s _ Hne];
      subst; try contradiction.
    + split; [reflexivity|]. right. split; [exact Hmiss|]. right. eauto.
    + split; [reflexivity|]. right. split; [exact Hmiss|]. left. eauto.
Qed.
End ReaddirFacts.

Lemma readdir_demo_call :
  toc demo_config "blog.example.org" demo_load demo_Cache demo_cache_Load
    demo_cache_Store demo_ReadDir stable_sort demo_clock snapshot_Read
    demo_Join "?" demo_UnmarshalCache demo_MarshalCache demo_Write
    demo_toc_Execute ∅ 1 "1" false false "?" (TocFresh (TocReaddir 3)) ∅.
Proof.
  apply (toc_miss demo_config "blog.example.org" demo_load demo_Cache
           demo_cache_Load demo_cache_Store demo_ReadDir stable_sort demo_clock
           snapshot_Read demo_Join "?" demo_UnmarshalCache demo_MarshalCache
           demo_Write demo_toc_Execute ∅ 1 "1" false false "?"
           (TocReaddir 3)); [reflexivity|].
  apply (gentoc_readdir _ _ _ _ _ _ _ _ _ _ _ _ _ _ _ _ _ _ demo_dir);
    reflexivity.
Qed.

Lemma a_readdir_request_demo :
  (∅ : demo_Cache) = ∅
  ∧ ((∃ data, demo_cache_Load ∅ (toc_key false "1" "?") "blog" = Some data
              ∧ TocFresh (TocReaddir 3) = TocCached data)
     ∨ (demo_cache_Load ∅ (toc_key false "1" "?") "blog" = None
        ∧ ((∃ dir, readDirEllipses demo_ReadDir demo_Join 1 "blog/post"
                   = Some (inr dir)
                   ∧ TocFresh (TocReaddir 3) = TocFresh (TocReaddir (length dir)))
           ∨ (∃ err, readDirEllipses demo_ReadDir demo_Join 1 "blog/post"
                     = Some (inl err)
                     ∧ TocFresh (TocReaddir 3) = TocFresh (TocPanic err))))).
Proof.
  exact (a_readdir_request_counts_the_listing_and_stores_nothing demo_config
           "blog.example.org" demo_load demo_Cache demo_cache_Load
           demo_cache_Store demo_ReadDir stable_sort demo_clock snapshot_Read
           demo_Join "?" demo_UnmarshalCache demo_MarshalCache demo_Write
           demo_toc_Execute ∅ ∅ 1 false false "?" (TocFresh (TocReaddir 3))
           readdir_demo_call).
Defined.
